(** * GTSAM linearization core: VectorValues and ExpressionFactor

    A shallow embedding of [gtsam/linear/VectorValues.h] and
    [gtsam_unstable/nonlinear/ExpressionFactor.h].

    - C++ exceptions and in-place mutation are modelled by a state monad
      whose result is either a value, a thrown exception or an aborted
      assertion; the state survives a throw, as the object does in C++.
    - [Key] is GTSAM's [size_t] key, [Vector] an Eigen dynamic vector (the
      list of its coefficients) and [Matrix] an Eigen dynamic matrix in
      Eigen's default column-major layout (the list of its columns).
    - The coefficient type is a parameter with an instance for IEEE
      binary64 ([double], which is what the code runs on) and instances for
      exact arithmetic, used where a property only holds without rounding. *)

From Stdlib Require Import ZArith Floats.
From stdpp Require Import gmap strings list fin_maps.

Set Default Proof Using "Type".
Set Warnings "-clear-no-such-hyp,-inexact-float".

(** ** Scalars *)

Class ScalarOps (S : Type) := {
  s0 : S;
  s1 : S;
  sadd : S → S → S;
  ssub : S → S → S;
  sopp : S → S;
}.

(** A commutative sum, which [double] has as well. *)
Class AddComm (S : Type) `{ScalarOps S} : Prop :=
  sadd_comm : ∀ a b : S, sadd a b = sadd b a.

(** Exact arithmetic: the sum is commutative and the difference undoes
    it, which rounding breaks. *)
Class ExactArith (S : Type) `{ScalarOps S} : Prop := {
  #[global] exact_add_comm :: AddComm S;
  sadd_ssub : ∀ a b : S, ssub (sadd a b) b = a;
}.

(** [double]. *)
#[global] Instance float_ops : ScalarOps float := {|
  s0 := 0%float;
  s1 := 1%float;
  sadd := PrimFloat.add;
  ssub := PrimFloat.sub;
  sopp := PrimFloat.opp;
|}.

#[global] Instance Z_ops : ScalarOps Z := {|
  s0 := 0%Z;
  s1 := 1%Z;
  sadd := Z.add;
  ssub := Z.sub;
  sopp := Z.opp;
|}.

(** ** Keys, vectors and matrices *)

Abbreviation Key := N (only parsing).
Abbreviation Vector S := (list S) (only parsing).
(** Column-major: the list of the columns. *)
Abbreviation Matrix S := (list (list S)) (only parsing).

(** [Vector::Zero(n)] *)
Definition Vector_Zero {S} `{ScalarOps S} (n : nat) : Vector S :=
  replicate n s0.

(** Coefficient-wise [a + b], [a - b] and [-a] of Eigen. *)
Definition vadd {S} `{ScalarOps S} (a b : Vector S) : Vector S :=
  zip_with sadd a b.
Definition vsub {S} `{ScalarOps S} (a b : Vector S) : Vector S :=
  zip_with ssub a b.
Definition vopp {S} `{ScalarOps S} (a : Vector S) : Vector S :=
  sopp <$> a.

(** ** Exceptions *)

Inductive exn :=
  | out_of_range (what : string)
  | invalid_argument (what : string).

(** The error taxonomy of the specification: [NotFound] is
    [std::out_of_range], [InvalidArgument] (which covers a duplicate key on
    insert) is [std::invalid_argument]. *)
Inductive error_class := NotFound | InvalidArgument.

Definition class_of (e : exn) : error_class :=
  match e with
  | out_of_range _ => NotFound
  | invalid_argument _ => InvalidArgument
  end.

(** The result of a call: a value, a thrown exception, or a failed
    [assert] (which terminates the program). *)
Inductive outcome (A : Type) :=
  | Return (a : A)
  | Throw (e : exn)
  | Abort.
Arguments Return {A} a.
Arguments Throw {A} e.
Arguments Abort {A}.

Definition fails_with {A} (o : outcome A) (c : error_class) : Prop :=
  ∃ e, o = Throw e ∧ class_of e = c.

#[global] Instance outcome_ret : MRet outcome := λ A a, Return a.
#[global] Instance outcome_bind : MBind outcome := λ A B f o,
  match o with
  | Return a => f a
  | Throw e => Throw e
  | Abort => Abort
  end.
#[global] Instance outcome_fmap : FMap outcome := λ A B f o,
  match o with
  | Return a => Return (f a)
  | Throw e => Throw e
  | Abort => Abort
  end.

(** A method of an object with state [St]: the state is threaded through
    and is still there after a throw. *)
Definition M (St A : Type) : Type := St → outcome A * St.

#[global] Instance M_ret {St} : MRet (M St) := λ A a st, (Return a, st).
#[global] Instance M_bind {St} : MBind (M St) := λ A B f m st,
  match m st with
  | (Return a, st') => f a st'
  | (Throw e, st') => (Throw e, st')
  | (Abort, st') => (Abort, st')
  end.

Definition throw {St A} (e : exn) : M St A := λ st, (Throw e, st).
Definition get {St} : M St St := λ st, (Return st, st).
Definition put {St} (st : St) : M St unit := λ _, (Return tt, st).

(** ** VectorValues *)

Module VectorValues.
Section VectorValues.
Context {S : Type} `{ScalarOps S}.

(** [DefaultKeyFormatter] of [gtsam/inference/Key.h]. *)
Variable DefaultKeyFormatter : Key → string.

(** [values_], a [ConcurrentMap<Key, Vector>]. *)
Abbreviation VectorValues := (gmap N (list S)) (only parsing).

(** An iterator is the entry it points to; [None] is [end()]. *)
Abbreviation iterator := (option (N * list S)) (only parsing).

(** *** The primitives of [ConcurrentMap] that the class uses *)

(** Modelled from the spec: [ConcurrentMap::find] of
    [gtsam/base/ConcurrentMap.h]; a BlockVector is a mapping from Key to
    vector with unique keys, looked up by key. *)
Definition map_find (j : Key) (m : VectorValues) : iterator :=
  (λ v, (j, v)) <$> m !! j.

(** Modelled from the spec: [ConcurrentMap::insert] of
    [gtsam/base/ConcurrentMap.h]: as the header says of [tryInsert], if
    the key exists the map is not modified and the existing entry is
    returned along with [false]; otherwise the entry is inserted and
    returned along with [true]. *)
Definition map_insert (key_value : N * list S) (m : VectorValues)
    : (iterator * bool) * VectorValues :=
  match m !! key_value.1 with
  | Some v => ((Some (key_value.1, v), false), m)
  | None => ((Some key_value, true), <[key_value.1 := key_value.2]> m)
  end.

(** Modelled from the spec: [ConcurrentMap::unsafe_erase] of
    [gtsam/base/ConcurrentMap.h]: removes the entry of the key and
    returns the number of entries removed. *)
Definition unsafe_erase (var : Key) (m : VectorValues) : N * VectorValues :=
  match m !! var with
  | Some _ => (1%N, delete var m)
  | None => (0%N, m)
  end.

(** *** The inline methods of the header *)

Definition size (vv : VectorValues) : nat := base.size vv.

Definition find (j : Key) (vv : VectorValues) : iterator := map_find j vv.

Definition exists_ (j : Key) (vv : VectorValues) : bool :=
  bool_decide (is_Some (find j vv)).

Definition at_ (j : Key) : M VectorValues (Vector S) := λ vv,
  match find j vv with
  | None =>
      (Throw (out_of_range
         ("Requested variable '" +:+ DefaultKeyFormatter j +:+
          "' is not in this VectorValues.")), vv)
  | Some item => (Return item.2, vv)
  end.

Definition dim (j : Key) : M VectorValues nat :=
  v ← at_ j; mret (length v).

(** [insert(const std::pair<Key, Vector>&)] *)
Definition insert_pair (key_value : N * list S)
    : M VectorValues iterator := λ vv,
  let '(result, vv') := map_insert key_value vv in
  if negb result.2 then
    (Throw (invalid_argument
       ("Requested to insert variable '" +:+
        DefaultKeyFormatter key_value.1 +:+
        "' already in this VectorValues.")), vv')
  else (Return result.1, vv').

(** [insert(Key, const Vector&)] *)
Definition insert (j : Key) (value : Vector S) : M VectorValues iterator :=
  insert_pair (j, value).

Definition tryInsert (j : Key) (value : Vector S) (vv : VectorValues)
    : (iterator * bool) * VectorValues :=
  map_insert (j, value) vv.

Definition erase (var : Key) : M VectorValues unit := λ vv,
  let '(n, vv') := unsafe_erase var vv in
  if (n =? 0)%N then
    (Throw (invalid_argument
       ("Requested variable '" +:+ DefaultKeyFormatter var +:+
        "', is not in this VectorValues.")), vv')
  else (Return tt, vv').


(** The constructors [VectorValues(const CONTAINER& c)] and
    [VectorValues(ITERATOR first, ITERATOR last)], which hand the range of
    pairs to the range constructor of the map: the pairs are inserted one
    after the other, each as by [map_insert]. A block vector is iterated
    from [begin()] to [end()] as a range of its entries. *)
Definition from_container (c : list (N * list S)) : VectorValues :=
  foldl (λ values_ key_value, (map_insert key_value values_).2) ∅ c.

(** [operator[](Key j)] *)
Definition subscript (j : Key) : M VectorValues (Vector S) := at_ j.

(** *** The methods the header only declares *)

(** The structure of a block vector: its keys with the dimension of each
    block. *)
Definition structure (vv : VectorValues) : gmap N nat := length <$> vv.

(** Modelled from the spec: [VectorValues::hasSameStructure], declared in
    the header and defined in [VectorValues.cpp]: two BlockVectors have the
    same structure iff they contain exactly the same set of keys and, for
    each shared key, identical vector dimension. *)
Definition hasSameStructure (this other : VectorValues) : bool :=
  bool_decide (structure this = structure other).

(** Modelled from the spec: [VectorValues::Zero], declared in the header and
    defined in [VectorValues.cpp]: a new BlockVector with identical
    structure to [other], all entries zero. The result starts empty and
    receives, for every entry of [other], a zero block of that entry's
    dimension under that entry's key. *)
Definition Zero (other : VectorValues) : VectorValues :=
  map_fold
    (λ k v result, (map_insert (k, Vector_Zero (length v)) result).2)
    ∅ other.

(** Modelled from the spec: [VectorValues::update], declared in the header
    and defined in [VectorValues.cpp]: for every key in [values], overwrite
    this container's block with that of [values]; fails with NotFound if any
    key in [values] is absent here. The write goes through [at], the single
    primitive all other read and write operations build on. *)
Definition update (values : VectorValues) : M VectorValues unit :=
  map_fold
    (λ k v rest,
       _ ← at_ k;
       this ← get;
       _ ← put (<[k := v]> this);
       rest)
    (mret tt) values.

(** Modelled from the spec: [VectorValues::add] and [operator+], declared in
    the header and defined in [VectorValues.cpp]: an independent per-block
    coefficient-wise sum. Matching structure is the caller's contract
    (asserted in debug builds, undefined behaviour otherwise): [None] is a
    call that breaks it. *)
Definition add (this c : VectorValues) : option VectorValues :=
  if hasSameStructure this c then Some (map_zip_with vadd this c) else None.

(** Modelled from the spec: [VectorValues::subtract] and [operator-],
    declared in the header and defined in [VectorValues.cpp]; as [add]. *)
Definition subtract (this c : VectorValues) : option VectorValues :=
  if hasSameStructure this c then Some (map_zip_with vsub this c) else None.

End VectorValues.



End VectorValues.

(** ** The collaborators of ExpressionFactor

    [Expression.h], [NonlinearFactor.h], [JacobianFactor.h],
    [VerticalBlockMatrix.h] and the noise models are not part of the two
    headers: their interfaces are taken as parameters, and the two small
    data structures the factor writes into are modelled from the
    specification. *)

(** [size_t] and [int] values, with the conversions of C++. *)
Definition to_size_t (z : Z) : N := Z.to_N (z mod 2 ^ 64).
Definition to_int (z : Z) : Z := (z + 2 ^ 31) mod 2 ^ 32 - 2 ^ 31.

(** [traits::dimension<T>::value] (a [static const int]) and
    [DefaultChart<T>::local]. *)
Class Manifold (S T : Type) := {
  Dim : Z;
  local : T → T → Vector S;
}.

(** The noise model interface: [dim()], [is_constrained()],
    [noiseModel::Constrained::unit()] and the in-place
    [WhitenSystem(Matrix& A, Vector& b)]. *)
Module noiseModel.
Class Base (S NM : Type) := {
  dim : NM → N;
  is_constrained : NM → bool;
  unit : NM → NM;
  WhitenSystem : NM → Matrix S → Vector S → Matrix S * Vector S;
}.
End noiseModel.

(** Modelled from the spec: the BlockMatrix ([VerticalBlockMatrix] of
    [gtsam/base/VerticalBlockMatrix.h]): a single matrix of fixed row
    dimension partitioned into contiguous column blocks, one per key in a
    fixed key order, plus, when asked for, one trailing single-column block
    reserved for the right-hand side. *)
Record VerticalBlockMatrix (S : Type) := mkVerticalBlockMatrix {
  matrix : Matrix S;
  variableColOffsets : list nat;
}.
Arguments mkVerticalBlockMatrix {S} _ _.
Arguments matrix {S} _.
Arguments variableColOffsets {S} _.

(** The column at which each block starts, followed by the column count. *)
Fixpoint fillOffsets (off : nat) (dimensions : list Z) : list nat :=
  match dimensions with
  | [] => [off]
  | d :: ds => off :: fillOffsets (off + Z.to_nat d) ds
  end.

(** The total width of the blocks of the given dimensions. *)
Definition total_width (dimensions : list Z) : nat :=
  sum_list_with Z.to_nat dimensions.

Section BlockMatrix.
Context {S : Type} `{ScalarOps S}.

(** Modelled from the spec: the constructor
    [VerticalBlockMatrix(dimensions, height, appendOneDimension)]; the
    coefficients of the fresh storage are the indeterminate [uninit]. *)
Definition VerticalBlockMatrix_new (uninit : S) (dimensions : list Z)
    (height : Z) (appendOneDimension : bool) : VerticalBlockMatrix S :=
  let offsets :=
    fillOffsets 0 (dimensions ++ if appendOneDimension then [1%Z] else []) in
  mkVerticalBlockMatrix
    (replicate (List.last offsets 0) (replicate (Z.to_nat height) uninit))
    offsets.

(** Modelled from the spec: [Ab(i)], the [i]-th column block. *)
Definition block (Ab : VerticalBlockMatrix S) (i : nat) : Matrix S :=
  let o := variableColOffsets Ab !!! i in
  let o' := variableColOffsets Ab !!! Datatypes.S i in
  take (o' - o) (drop o (matrix Ab)).

(** Modelled from the spec: [Ab.matrix().setZero()]. *)
Definition setZero (Ab : VerticalBlockMatrix S) : VerticalBlockMatrix S :=
  mkVerticalBlockMatrix
    (fmap (M:=list) (fmap (M:=list) (λ _ : S, s0)) (matrix Ab))
    (variableColOffsets Ab).

(** Modelled from the spec: [Ab(i).col(c) = v]. Eigen only asserts that the
    column exists, so outside the matrix nothing is written. *)
Definition set_block_col (Ab : VerticalBlockMatrix S) (i c : nat)
    (v : Vector S) : VerticalBlockMatrix S :=
  mkVerticalBlockMatrix
    (<[variableColOffsets Ab !!! i + c := v]> (matrix Ab))
    (variableColOffsets Ab).

(** [Ab(i).col(c)] *)
Definition block_col (Ab : VerticalBlockMatrix S) (i c : nat)
    : option (Vector S) :=
  matrix Ab !! (variableColOffsets Ab !!! i + c).

(** [H->at(i) = m] on a [std::vector<Matrix>]: [at] checks the index and
    throws [std::out_of_range]. What [what()] says is left to the standard
    library: the text here only names the origin, and no property rests on
    it. *)
Definition vector_at_put (i : nat) (m : Matrix S)
    : M (list (Matrix S)) unit := λ H,
  if decide (i < length H) then (Return tt, <[i := m]> H)
  else (Throw (out_of_range "vector::at"), H).

End BlockMatrix.

(** [Expression<T>]: [keysAndDims()], [value(x)] and [value(x, map)], whose
    [JacobianMap] argument wraps the keys and the block matrix it writes
    the Jacobians into. *)
Record Expression (S Values T : Type) := mkExpression {
  keysAndDims : list N * list Z;
  value : Values → outcome T;
  value_map : Values → list N → M (VerticalBlockMatrix S) T;
}.
Arguments mkExpression {S Values T} _ _ _.
Arguments keysAndDims {S Values T} _.
Arguments value {S Values T} _ _.
Arguments value_map {S Values T} _ _ _ _.

(** What the factor relies on in an expression, as its interface promises:
    one dimension per key; [value(x, map)] returns what [value(x)] returns,
    the Jacobians being a side effect; and the side effect writes
    coefficients through fixed-size block views, so the shape of the block
    matrix stays as it was. *)
Record WellBehaved {S Values T} (e : Expression S Values T) : Prop := {
  keysAndDims_length : length (keysAndDims e).1 = length (keysAndDims e).2;
  value_map_value : ∀ x keys Ab, (value_map e x keys Ab).1 = value e x;
  value_map_offsets : ∀ x keys Ab,
    variableColOffsets (value_map e x keys Ab).2 = variableColOffsets Ab;
  value_map_cols : ∀ x keys Ab,
    length (matrix (value_map e x keys Ab).2) = length (matrix Ab);
}.

(** Modelled from the spec: the LinearFactor ([JacobianFactor] of
    [gtsam/linear/JacobianFactor.h]): the keys, the augmented block matrix
    and the noise model it carries, if any. *)
Record JacobianFactor (S NM : Type) := mkJacobianFactor {
  jf_keys : list N;
  Ab_ : VerticalBlockMatrix S;
  model_ : option NM;
}.
Arguments mkJacobianFactor {S NM} _ _ _.
Arguments jf_keys {S NM} _.
Arguments Ab_ {S NM} _.
Arguments model_ {S NM} _.

(** Modelled from the spec: the constructor
    [JacobianFactor(keys, dims, m, model = SharedDiagonal())], which
    allocates the [m] rows of the blocks and of the right-hand side. *)
Definition JacobianFactor_new {S NM} `{ScalarOps S} (uninit : S)
    (keys : list N) (dims : list Z) (m : Z) (model : option NM)
    : JacobianFactor S NM :=
  mkJacobianFactor keys (VerticalBlockMatrix_new uninit dims m true) model.

(** [JacobianFactor::getb()]: the right-hand side. *)
Definition getb {S NM} `{ScalarOps S} (factor : JacobianFactor S NM)
    : option (Vector S) :=
  block_col (Ab_ factor) (length (jf_keys factor)) 0.

(** [JacobianFactor::getA(i)]: the Jacobian block of the [i]-th key. *)
Definition getA {S NM} `{ScalarOps S} (factor : JacobianFactor S NM)
    (i : nat) : Matrix S :=
  block (Ab_ factor) i.

(** ** ExpressionFactor *)

Module ExpressionFactor.

(** The members of the class, with [keys_] and [noiseModel_] of its bases
    [Factor] and [NoiseModelFactor]. The constructor leaves [noiseModel_]
    non-null, so the field is the model itself. *)
Record t (S Values T NM : Type) := mk {
  measurement_ : T;
  expression_ : Expression S Values T;
  dimensions_ : list Z;
  augmentedCols_ : N;
  keys_ : list N;
  noiseModel_ : NM;
}.
Arguments mk {S Values T NM} _ _ _ _ _ _.
Arguments measurement_ {S Values T NM} _.
Arguments expression_ {S Values T NM} _.
Arguments dimensions_ {S Values T NM} _.
Arguments augmentedCols_ {S Values T NM} _.
Arguments keys_ {S Values T NM} _.
Arguments noiseModel_ {S Values T NM} _.

Section ExpressionFactor.
Context {S Values T NM : Type}.
Context `{ScalarOps S} `{Manifold S T} `{noiseModel.Base S NM}.

(** Whether [NDEBUG] is defined, which turns [assert] off. *)
Variable NDEBUG : bool.

(** The indeterminate content of freshly allocated coefficients. *)
Variable uninit : S.

(** [NonlinearFactor::active], a virtual method of the base class. *)
Variable active : Values → bool.

(** [std::accumulate(first, last, init)] over [int]; an overflow, which
    C++ leaves undefined, wraps. *)
Definition accumulate (l : list Z) (init : Z) : Z :=
  foldl (λ acc d, to_int (acc + d)) init l.

(** The constructor. [noiseModel] is a shared pointer: [None] is null. In
    [noiseModel->dim() != Dim] the [int] is converted to [size_t]. *)
Definition ExpressionFactor (noiseModel : option NM) (measurement : T)
    (expression : Expression S Values T) : outcome (t S Values T NM) :=
  match noiseModel with
  | None => Throw (invalid_argument "ExpressionFactor: no NoiseModel.")
  | Some nm =>
      if negb (noiseModel.dim nm =? to_size_t Dim)%N then
        Throw (invalid_argument
          "ExpressionFactor was created with a NoiseModel of incorrect dimension.")
      else
        let '(keys, dimensions) := keysAndDims expression in
        Return (mk measurement expression dimensions
                  (to_size_t (accumulate dimensions 1)) keys nm)
  end.

(** [Factor::size()] *)
Definition size (f : t S Values T NM) : nat := length (keys_ f).

(** The loop [for (i = 0; i < size(); i++) H->at(i) = Ab(i)]. *)
Fixpoint copy_blocks (Ab : VerticalBlockMatrix S) (indices : list nat)
    : M (list (Matrix S)) unit :=
  match indices with
  | [] => mret tt
  | i :: rest => _ ← vector_at_put i (block Ab i); copy_blocks Ab rest
  end.

(** [unwhitenedError(x, H)]; the state is the vector [H] refers to, when
    there is one. *)
Definition unwhitenedError (f : t S Values T NM) (x : Values)
    : M (option (list (Matrix S))) (Vector S) := λ H,
  match H with
  | Some H0 =>
      if negb NDEBUG && negb (length H0 =? size f) then (Abort, H)
      else
        let Ab := VerticalBlockMatrix_new uninit (dimensions_ f) Dim false in
        let Ab := setZero Ab in
        match value_map (expression_ f) x (keys_ f) Ab with
        | (Return value, Ab) =>
            match copy_blocks Ab (seq 0 (size f)) H0 with
            | (Return _, H1) =>
                (Return (local (measurement_ f) value), Some H1)
            | (Throw e, H1) => (Throw e, Some H1)
            | (Abort, H1) => (Abort, Some H1)
            end
        | (Throw e, _) => (Throw e, H)
        | (Abort, _) => (Abort, H)
        end
  | None =>
      (value ← value (expression_ f) x;
       mret (local (measurement_ f) value), H)
  end.

(** [linearize(x)]; [None] is the null pointer. *)
Definition linearize (f : t S Values T NM) (x : Values)
    : outcome (option (JacobianFactor S NM)) :=
  if negb (active x) then Return None
  else
    let constrained := noiseModel.is_constrained (noiseModel_ f) in
    let factor :=
      if constrained then
        JacobianFactor_new uninit (keys_ f) (dimensions_ f) Dim
          (Some (noiseModel.unit (noiseModel_ f)))
      else JacobianFactor_new uninit (keys_ f) (dimensions_ f) Dim None in
    let Ab := Ab_ factor in
    let Ab := setZero Ab in
    match value_map (expression_ f) x (keys_ f) Ab with
    | (Return value, Ab) =>
        let Ab :=
          set_block_col Ab (size f) 0 (vopp (local (measurement_ f) value)) in
        let dummy := replicate (Z.to_nat Dim) uninit in
        let '(A, dummy) :=
          noiseModel.WhitenSystem (noiseModel_ f) (matrix Ab) dummy in
        Return (Some (mkJacobianFactor (jf_keys factor)
                        (mkVerticalBlockMatrix A (variableColOffsets Ab))
                        (model_ factor)))
    | (Throw e, _) => Throw e
    | (Abort, _) => Abort
    end.

End ExpressionFactor.
End ExpressionFactor.

(** ** A concrete factor

    The scenario of the specification: the identity expression [h(x) = x]
    over a single real-vector key, with noise models whose whitening leaves
    the system as it is. *)

Module Example.
Section Example.
Context {S : Type} `{ScalarOps S}.

(** Vector-valued assignments. *)
Abbreviation Values := (gmap N (list S)) (only parsing).

(** [Values::at] *)
Definition Values_at (j : Key) (x : Values) : outcome (Vector S) :=
  match x !! j with
  | Some v => Return v
  | None => Throw (out_of_range "Values::at")
  end.

(** A vector space of dimension [n] as a manifold: [local(origin, other)]
    is [other - origin]. *)
Definition vector_manifold (n : Z) : Manifold S (Vector S) :=
  {| Dim := n; local origin other := vsub other origin |}.

(** The block a [JacobianMap] hands out for a key: the position of the key
    among the keys. *)
Fixpoint key_index (keys : list N) (k : Key) : nat :=
  match keys with
  | [] => 0
  | k' :: keys => if decide (k' = k) then 0 else Datatypes.S (key_index keys k)
  end.

(** [block(i) += I] *)
Definition add_identity (Ab : VerticalBlockMatrix S) (i : nat)
    : VerticalBlockMatrix S :=
  let o := variableColOffsets Ab !!! i in
  let o' := variableColOffsets Ab !!! Datatypes.S i in
  mkVerticalBlockMatrix
    (imap (λ c (col : list S),
       if bool_decide (o ≤ c < o') then
         imap (λ r a, if bool_decide (r = c - o) then sadd a s1 else a) col
       else col) (matrix Ab))
    (variableColOffsets Ab).

(** The leaf expression of the key [k], of dimension [n]. *)
Definition identity (k : Key) (n : Z) : Expression S Values (Vector S) :=
  mkExpression ([k], [n]) (Values_at k)
    (λ x keys Ab,
       match Values_at k x with
       | Return v => (Return v, add_identity Ab (key_index keys k))
       | Throw e => (Throw e, Ab)
       | Abort => (Abort, Ab)
       end).

(** The sum of the keys [k1] and [k2], both of dimension [n]: each of the
    two Jacobians is the identity. *)
Definition sum_value (k1 k2 : Key) (x : Values) : outcome (Vector S) :=
  v1 ← Values_at k1 x; v2 ← Values_at k2 x; mret (vadd v1 v2).

Definition sum (k1 k2 : Key) (n : Z) : Expression S Values (Vector S) :=
  mkExpression ([k1; k2], [n; n]) (sum_value k1 k2)
    (λ x keys Ab,
       match sum_value k1 k2 x with
       | Return v =>
           (Return v,
            add_identity (add_identity Ab (key_index keys k1))
              (key_index keys k2))
       | Throw e => (Throw e, Ab)
       | Abort => (Abort, Ab)
       end).

(** Two noise models: the unit model and a hard constraint on every row. *)
Inductive Noise := Unit (n : N) | Constrained (n : N).

Definition Noise_base : noiseModel.Base S Noise := {|
  noiseModel.dim nm := match nm with Unit n | Constrained n => n end;
  noiseModel.is_constrained nm :=
    match nm with Unit _ => false | Constrained _ => true end;
  noiseModel.unit nm := match nm with Unit n | Constrained n => Unit n end;
  noiseModel.WhitenSystem nm A b := (A, b);
|}.

End Example.

(** The example of the header. *)
Definition values : gmap N (list float) :=
  <[0%N := [6; 7; 8; 9]%float]>
    (<[4%N := [4; 5]%float]> (<[3%N := [1; 2; 3]%float]> ∅)).

(** A measurement, and an assignment of the key 0 that is off by
    [(0.5, 2)]. *)
Definition z : list float := [1; 2]%float.
Definition x : gmap N (list float) := {[ 0%N := [1.5; 4]%float ]}.

(** The plane as measurement type, and the noise models over [double]. *)
#[global] Instance R2 : Manifold float (list float) := vector_manifold 2.
#[global] Instance Noise_double : noiseModel.Base float Noise := Noise_base.

(** [h(x) = x] at the key 0. *)
Definition h : Expression float (gmap N (list float)) (list float) :=
  identity 0 2.

(** The factors the constructor builds from [z] and [h] with the unit model
    and with the constrained model. *)
Definition unit_factor
    : ExpressionFactor.t float (gmap N (list float)) (list float) Noise :=
  ExpressionFactor.mk z h [2%Z] 3 [0%N] (Unit 2).
Definition constrained_factor
    : ExpressionFactor.t float (gmap N (list float)) (list float) Noise :=
  ExpressionFactor.mk z h [2%Z] 3 [0%N] (Constrained 2).

(** A factor on the sum of the keys 0 and 1, and an assignment of both. *)
Definition sum_factor
    : ExpressionFactor.t float (gmap N (list float)) (list float) Noise :=
  ExpressionFactor.mk z (sum 0 1 2) [2%Z; 2%Z] 5 [0%N; 1%N] (Unit 2).
Definition x2 : gmap N (list float) :=
  <[0%N := [1; 1]%float]> {[ 1%N := [0.5; 3]%float ]}.

End Example.

(** * Properties *)

(** ** Scalars *)

#[global] Instance Z_exact : ExactArith Z.
Proof. split; [intros a b|intros a b]; simpl; lia. Qed.

(** The sum of IEEE binary64 is commutative, by its specification. *)
Lemma SFadd_comm prec emax x y : SFadd prec emax x y = SFadd prec emax y x.
Proof.
  destruct x as [sx|sx| |sx mx ex], y as [sy|sy| |sy my ey]; simpl;
    try reflexivity; try (destruct sx, sy; reflexivity).
  by rewrite Z.min_comm, Z.add_comm.
Qed.

#[global] Instance float_add_comm : AddComm float.
Proof.
  intros a b. simpl. apply Prim2SF_inj. rewrite !add_spec. apply SFadd_comm.
Qed.

(** ** VectorValues: lookup, insert and erase *)

Section VectorValuesFacts.
Context {S : Type} `{ScalarOps S}.
Variable fmt : Key → string.
Implicit Types (vv this other : gmap N (list S)) (j var : N).

Lemma exists_lookup j vv :
  VectorValues.exists_ j vv = true ↔ is_Some (vv !! j).
Proof.
  unfold VectorValues.exists_, VectorValues.find, VectorValues.map_find.
  rewrite bool_decide_eq_true, fmap_is_Some. done.
Qed.

Lemma exists_false j vv :
  VectorValues.exists_ j vv = false ↔ vv !! j = None.
Proof.
  rewrite <- not_true_iff_false, exists_lookup, eq_None_not_Some. done.
Qed.

Lemma at_present j vv value :
  vv !! j = Some value → VectorValues.at_ fmt j vv = (Return value, vv).
Proof.
  intros Hj. unfold VectorValues.at_, VectorValues.find, VectorValues.map_find.
  by rewrite Hj.
Qed.

Lemma at_absent j vv :
  vv !! j = None →
  VectorValues.at_ fmt j vv =
    (Throw (out_of_range
       ("Requested variable '" +:+ fmt j +:+
        "' is not in this VectorValues.")), vv).
Proof.
  intros Hj. unfold VectorValues.at_, VectorValues.find, VectorValues.map_find.
  by rewrite Hj.
Qed.

Lemma erase_present var vv :
  is_Some (vv !! var) →
  VectorValues.erase fmt var vv = (Return tt, delete var vv).
Proof.
  intros [v Hv]. unfold VectorValues.erase, VectorValues.unsafe_erase.
  by rewrite Hv.
Qed.

Lemma erase_absent var vv :
  vv !! var = None →
  VectorValues.erase fmt var vv =
    (Throw (invalid_argument
       ("Requested variable '" +:+ fmt var +:+
        "', is not in this VectorValues.")), vv).
Proof.
  intros Hv. unfold VectorValues.erase, VectorValues.unsafe_erase.
  by rewrite Hv.
Qed.

(** After a successful [erase], [exists] is false. *)
Lemma erase_then_exists var vv vv' :
  VectorValues.erase fmt var vv = (Return tt, vv') →
  VectorValues.exists_ var vv' = false.
Proof.
  destruct (vv !! var) as [v|] eqn:Hv.
  - rewrite erase_present by eauto. intros [= <-].
    apply exists_false, lookup_delete_eq.
  - rewrite erase_absent by done. discriminate.
Qed.

(** An absent key makes [erase] and [at] throw exceptions of different
    classes: [std::invalid_argument] against [std::out_of_range]. *)
Lemma erase_at_classes_differ var vv :
  vv !! var = None →
  fails_with (VectorValues.erase fmt var vv).1 InvalidArgument ∧
  fails_with (VectorValues.at_ fmt var vv).1 NotFound.
Proof.
  intros Hv. rewrite erase_absent, at_absent by done.
  split; eexists; split; reflexivity.
Qed.

(** C7: [insert] on a key already present throws [std::invalid_argument]
    (the DuplicateKey failure) and changes nothing; on a key not present it
    returns, and [at] on that key then returns the inserted vector. *)
Theorem insert_then_at j value vv :
  (is_Some (vv !! j) →
     fails_with (VectorValues.insert fmt j value vv).1 InvalidArgument ∧
     (VectorValues.insert fmt j value vv).2 = vv) ∧
  (vv !! j = None →
     VectorValues.insert fmt j value vv =
       (Return (Some (j, value)), <[j := value]> vv) ∧
     VectorValues.at_ fmt j (<[j := value]> vv) =
       (Return value, <[j := value]> vv)).
Proof.
  unfold VectorValues.insert, VectorValues.insert_pair,
    VectorValues.map_insert; simpl.
  split.
  - intros [w Hw]. rewrite Hw; simpl. split; [|done].
    eexists; split; reflexivity.
  - intros Hj. rewrite Hj; simpl. split; [done|].
    apply at_present, lookup_insert_eq.
Qed.

End VectorValuesFacts.

(** C5 (the code departs from its documentation): on the block vector of
    the header's example, which has the keys 0, 3 and 4, [erase(1)] throws
    [std::invalid_argument] and leaves the vector as it was, where [at(1)]
    throws [std::out_of_range], the exception the comment of [erase]
    announces. *)
Theorem erase_absent_throws_invalid_argument (fmt : N → string) :
  VectorValues.erase fmt 1 Example.values =
    (Throw (invalid_argument
       ("Requested variable '" +:+ fmt 1%N +:+
        "', is not in this VectorValues.")), Example.values) ∧
  VectorValues.at_ fmt 1 Example.values =
    (Throw (out_of_range
       ("Requested variable '" +:+ fmt 1%N +:+
        "' is not in this VectorValues.")), Example.values) ∧
  ¬ fails_with (VectorValues.erase fmt 1 Example.values).1 NotFound.
Proof.
  assert (Example.values !! 1%N = None) as Hv by reflexivity.
  rewrite erase_absent, at_absent by done.
  split_and!; [done..|]. intros (e & [= <-] & [=]).
Qed.

(** C7 on the header's example: the key 3 is taken, the key 1 is free. *)
Lemma insert_then_at_witness :
  (fails_with
     (VectorValues.insert (λ _, "x") 3 [0%float] Example.values).1
     InvalidArgument ∧
   (VectorValues.insert (λ _, "x") 3 [0%float] Example.values).2 =
     Example.values) ∧
  (VectorValues.insert (λ _, "x") 1 [8; 9]%float Example.values =
     (Return (Some (1%N, [8; 9]%float)),
      <[1%N := [8; 9]%float]> Example.values) ∧
   VectorValues.at_ (λ _, "x") 1 (<[1%N := [8; 9]%float]> Example.values) =
     (Return [8; 9]%float, <[1%N := [8; 9]%float]> Example.values)).
Proof.
  split.
  - apply (insert_then_at (λ _, "x") 3 [0%float] Example.values).
    by eexists.
  - apply (insert_then_at (λ _, "x") 1 [8; 9]%float Example.values).
    reflexivity.
Defined.

(** ** VectorValues: Zero, update, sum and difference *)

Section VectorValuesAlgebra.
Context {S : Type} `{ScalarOps S}.
Variable fmt : Key → string.
Implicit Types (a b vv this other values : gmap N (list S)) (j k : N).
Implicit Types (v w zv : list S).

Lemma hasSameStructure_true this other :
  VectorValues.hasSameStructure this other = true ↔
  VectorValues.structure this = VectorValues.structure other.
Proof. unfold VectorValues.hasSameStructure. apply bool_decide_eq_true. Qed.

(** Same structure: the same keys, and blocks of the same dimension. *)
Lemma structure_eq_iff this other :
  VectorValues.structure this = VectorValues.structure other ↔
  dom this = dom other ∧
  ∀ k v w, this !! k = Some v → other !! k = Some w → length v = length w.
Proof.
  unfold VectorValues.structure. split.
  - intros Heq. split.
    + by rewrite <- (dom_fmap_L (@length S) this), Heq, dom_fmap_L.
    + intros k v w Hv Hw.
      assert ((length <$> this) !! k = (length <$> other) !! k) as Hk
        by (by rewrite Heq).
      rewrite !lookup_fmap, Hv, Hw in Hk. by injection Hk.
  - intros [Hdom Hlen]. apply map_eq; intros k. rewrite !lookup_fmap.
    destruct (this !! k) as [v|] eqn:Hv, (other !! k) as [w|] eqn:Hw; simpl.
    + f_equal. eauto.
    + apply (elem_of_dom_2 this) in Hv. rewrite Hdom in Hv.
      apply not_elem_of_dom in Hw. done.
    + apply (elem_of_dom_2 other) in Hw. rewrite <- Hdom in Hw.
      apply not_elem_of_dom in Hv. done.
    + done.
Qed.

(** The loop of [Zero] builds the block vector of the zero blocks. *)
Lemma Zero_fmap a :
  VectorValues.Zero a = (λ v, Vector_Zero (length v)) <$> a.
Proof.
  unfold VectorValues.Zero.
  apply (map_fold_weak_ind (λ result m,
    result = (λ v, Vector_Zero (length v)) <$> m)).
  - by rewrite fmap_empty.
  - intros i x m r Hi ->. unfold VectorValues.map_insert; simpl.
    rewrite lookup_fmap, Hi; simpl. by rewrite fmap_insert.
Qed.

(** C8: [Zero(a)] has the structure of [a], that is the keys of [a] and
    for each key a block of the dimension it has in [a], and every
    coefficient of every block of it is zero. *)
Theorem Zero_structure_and_blocks a :
  VectorValues.hasSameStructure (VectorValues.Zero a) a = true ∧
  dom (VectorValues.Zero a) = dom a ∧
  (∀ k v, a !! k = Some v →
     ∃ zv, VectorValues.Zero a !! k = Some zv ∧ length zv = length v) ∧
  (∀ k zv, VectorValues.Zero a !! k = Some zv → Forall (λ c, c = s0) zv).
Proof.
  rewrite Zero_fmap. split_and!.
  - apply hasSameStructure_true. unfold VectorValues.structure.
    rewrite <- map_fmap_compose. apply map_fmap_ext. intros k v _; simpl.
    apply length_replicate.
  - apply dom_fmap_L.
  - intros k v Hv. rewrite lookup_fmap, Hv; simpl.
    eexists; split; [done|apply length_replicate].
  - intros k zv. rewrite lookup_fmap.
    destruct (a !! k) as [v|]; simpl; intros [= <-].
    apply Forall_forall. intros c Hc.
    by apply elem_of_replicate in Hc as [-> _].
Qed.

(** One iteration of the loop of [update], followed by the rest [rest]. *)
Lemma update_step k v (rest : M (gmap N (list S)) unit) this :
  (_ ← VectorValues.at_ fmt k;
   this' ← get;
   _ ← put (<[k := v]> this');
   rest) this =
  match this !! k with
  | Some _ => rest (<[k := v]> this)
  | None =>
      (Throw (out_of_range
         ("Requested variable '" +:+ fmt k +:+
          "' is not in this VectorValues.")), this)
  end.
Proof.
  unfold mbind, M_bind, get, put.
  destruct (this !! k) as [w|] eqn:Hk.
  - by rewrite (at_present fmt k this w Hk).
  - by rewrite (at_absent fmt k this Hk).
Qed.

(** What a run of [update] does to the target, whether it returns or
    throws. *)
Lemma update_run values : ∀ this,
  dom (VectorValues.update fmt values this).2 = dom this ∧
  (∀ k, values !! k = None →
     (VectorValues.update fmt values this).2 !! k = this !! k) ∧
  (dom values ⊆ dom this →
     VectorValues.update fmt values this = (Return tt, values ∪ this)) ∧
  (¬ dom values ⊆ dom this →
     fails_with (VectorValues.update fmt values this).1 NotFound).
Proof.
  unfold VectorValues.update.
  apply (map_fold_weak_ind (λ (acc : M (gmap N (list S)) unit) m, ∀ this,
    dom (acc this).2 = dom this ∧
    (∀ k, m !! k = None → (acc this).2 !! k = this !! k) ∧
    (dom m ⊆ dom this → acc this = (Return tt, m ∪ this)) ∧
    (¬ dom m ⊆ dom this → fails_with (acc this).1 NotFound))).
  - intros this. split_and!; try done.
    + intros _. unfold mret, M_ret. by rewrite (left_id_L ∅ (∪)).
    + intros []. set_solver.
  - intros i x m r Hi IH this. rewrite update_step.
    destruct (this !! i) as [w|] eqn:Hw.
    + destruct (IH (<[i := x]> this)) as (IHdom & IHframe & IHok & IHfail).
      assert (dom (<[i := x]> this) = dom this) as Hdom.
      { rewrite dom_insert_L. apply elem_of_dom_2 in Hw. set_solver. }
      split_and!.
      * by rewrite IHdom.
      * intros k Hk. apply lookup_insert_None in Hk as [Hk Hne].
        by rewrite IHframe, lookup_insert_ne.
      * intros Hsub. rewrite IHok.
        -- by rewrite <- insert_union_r, insert_union_l.
        -- rewrite Hdom. rewrite dom_insert_L in Hsub. set_solver.
      * intros Hsub. apply IHfail. rewrite Hdom. intros Hm. apply Hsub.
        rewrite dom_insert_L. apply elem_of_dom_2 in Hw. set_solver.
    + simpl. split_and!; try done.
      * intros Hsub. apply not_elem_of_dom in Hw. exfalso. apply Hw, Hsub.
        rewrite dom_insert_L. set_solver.
      * intros _. eexists; split; reflexivity.
Qed.

(** C6: [update(values)] leaves the target with the keys it had (it adds
    none) and with the block it had under every key that [values] does not
    mention; if every key of [values] is in the target it returns, and the
    target then holds the block of [values] under every key of [values];
    and if some key of [values] is absent from the target it throws
    [std::out_of_range] (NotFound). *)
Theorem update_overwrites_exactly values this :
  dom (VectorValues.update fmt values this).2 = dom this ∧
  (∀ k, values !! k = None →
     (VectorValues.update fmt values this).2 !! k = this !! k) ∧
  (dom values ⊆ dom this →
     (VectorValues.update fmt values this).1 = Return tt ∧
     ∀ k v, values !! k = Some v →
       (VectorValues.update fmt values this).2 !! k = Some v) ∧
  (¬ dom values ⊆ dom this →
     fails_with (VectorValues.update fmt values this).1 NotFound).
Proof.
  destruct (update_run values this) as (Hdom & Hframe & Hok & Hfail).
  split_and!; try done.
  intros Hsub. rewrite (Hok Hsub); simpl. split; [done|].
  intros k v Hv. by apply lookup_union_Some_l.
Qed.

(** *** Sum and difference *)

Lemma vadd_comm `{!AddComm S} v w : vadd v w = vadd w v.
Proof.
  unfold vadd. revert w. induction v as [|c v IH]; intros [|d w]; simpl;
    try done.
  by rewrite sadd_comm, IH.
Qed.

Lemma vadd_vsub `{!ExactArith S} v w :
  length v = length w → vsub (vadd v w) w = v.
Proof.
  unfold vsub, vadd. revert w.
  induction v as [|c v IH]; intros [|d w]; simpl; try done.
  intros [= Hlen]. by rewrite sadd_ssub, IH.
Qed.

Lemma length_vadd v w : length v = length w → length (vadd v w) = length v.
Proof. intros Hlen. unfold vadd. rewrite length_zip_with. lia. Qed.

Lemma same_structure_lookup a b k :
  VectorValues.structure a = VectorValues.structure b →
  match a !! k, b !! k with
  | Some v, Some w => length v = length w
  | None, None => True
  | _, _ => False
  end.
Proof.
  unfold VectorValues.structure. intros Heq.
  assert ((length <$> a) !! k = (length <$> b) !! k) as Hk by (by rewrite Heq).
  rewrite !lookup_fmap in Hk.
  destruct (a !! k), (b !! k); simpl in Hk; try done. by injection Hk.
Qed.

(** The sum commutes wherever the sum of the coefficients does, over
    [double] too. *)
Lemma add_commutes `{!AddComm S} a b :
  VectorValues.hasSameStructure a b = true →
  VectorValues.add a b = Some (map_zip_with vadd a b) ∧
  VectorValues.add b a = Some (map_zip_with vadd a b).
Proof.
  intros Hab. pose proof Hab as Hab'%hasSameStructure_true.
  assert (VectorValues.hasSameStructure b a = true) as Hba
    by (by apply hasSameStructure_true).
  unfold VectorValues.add. rewrite Hab, Hba. split; [done|].
  f_equal. apply map_eq; intros k. rewrite !map_lookup_zip_with.
  destruct (a !! k), (b !! k); simpl; try done. by rewrite vadd_comm.
Qed.

(** Over exact arithmetic: for block vectors [a] and [b] of the same
    structure, [a + b] and [b + a] are the same block vector, and
    [(a + b) - b] is [a]. *)
Theorem add_commutes_subtract_cancels `{!ExactArith S} a b :
  VectorValues.hasSameStructure a b = true →
  ∃ s, VectorValues.add a b = Some s ∧
       VectorValues.add b a = Some s ∧
       VectorValues.subtract s b = Some a.
Proof.
  intros Hab. pose proof Hab as Hab'%hasSameStructure_true.
  destruct (add_commutes a b Hab) as [Hsum Hsum'].
  exists (map_zip_with vadd a b). split_and!; [done..|].
  unfold VectorValues.subtract.
  assert (VectorValues.hasSameStructure (map_zip_with vadd a b) b = true)
    as ->.
  { apply hasSameStructure_true. rewrite <- Hab'.
    unfold VectorValues.structure. apply map_eq; intros k.
    rewrite !lookup_fmap, map_lookup_zip_with.
    pose proof (same_structure_lookup a b k Hab') as Hk.
    destruct (a !! k), (b !! k); simpl; try done.
    by rewrite length_vadd. }
  f_equal. apply map_eq; intros k. rewrite !map_lookup_zip_with.
  pose proof (same_structure_lookup a b k Hab') as Hk.
  destruct (a !! k), (b !! k); simpl; try done.
  by rewrite vadd_vsub.
Qed.




End VectorValuesAlgebra.

(** C6 on the header's example: the keys 3 and 4 are overwritten, the key 0
    keeps its block, and an update that mentions the absent key 1 throws. *)
Lemma update_overwrites_exactly_witness :
  (VectorValues.update (λ _, "x")
     (<[3%N := [0; 0; 0]%float]> {[ 4%N := [1; 1]%float ]})
     Example.values).1 = Return tt ∧
  (VectorValues.update (λ _, "x")
     (<[3%N := [0; 0; 0]%float]> {[ 4%N := [1; 1]%float ]})
     Example.values).2 !! 0%N = Some [6; 7; 8; 9]%float ∧
  (VectorValues.update (λ _, "x")
     (<[3%N := [0; 0; 0]%float]> {[ 4%N := [1; 1]%float ]})
     Example.values).2 !! 4%N = Some [1; 1]%float ∧
  fails_with
    (VectorValues.update (λ _, "x") {[ 1%N := [1; 1]%float ]}
       Example.values).1 NotFound.
Proof.
  pose proof (update_overwrites_exactly (λ _, "x")
    (<[3%N := [0; 0; 0]%float]> {[ 4%N := [1; 1]%float ]}) Example.values)
    as (_ & Hframe & Hok & _).
  pose proof (update_overwrites_exactly (λ _, "x")
    {[ 1%N := [1; 1]%float ]} Example.values) as (_ & _ & _ & Hfail).
  split_and!.
  - apply Hok. intros k. rewrite !elem_of_dom. unfold Example.values.
    intros [v Hk]. destruct (decide (k = 3%N)) as [->|]; [by eexists|].
    rewrite lookup_insert_ne in Hk by done.
    apply lookup_singleton_Some in Hk as [<- _]. by eexists.
  - rewrite Hframe; reflexivity.
  - apply Hok; [|reflexivity].
    intros k. rewrite !elem_of_dom. unfold Example.values.
    intros [v Hk]. destruct (decide (k = 3%N)) as [->|]; [by eexists|].
    rewrite lookup_insert_ne in Hk by done.
    apply lookup_singleton_Some in Hk as [<- _]. by eexists.
  - apply Hfail. intros Hsub.
    assert (1%N ∈ dom Example.values) as Hin.
    { apply Hsub, elem_of_dom. by eexists. }
    apply elem_of_dom in Hin as [v Hv]. discriminate Hv.
Defined.

(** The same at integer blocks. *)
Lemma add_commutes_subtract_cancels_witness :
  ∃ s,
    VectorValues.add
      (<[0%N := [1; 2]%Z]> {[ 1%N := [3%Z] ]})
      (<[0%N := [10; 20]%Z]> {[ 1%N := [30%Z] ]}) = Some s ∧
    VectorValues.add
      (<[0%N := [10; 20]%Z]> {[ 1%N := [30%Z] ]})
      (<[0%N := [1; 2]%Z]> {[ 1%N := [3%Z] ]}) = Some s ∧
    VectorValues.subtract s (<[0%N := [10; 20]%Z]> {[ 1%N := [30%Z] ]}) =
      Some (<[0%N := [1; 2]%Z]> {[ 1%N := [3%Z] ]}).
Proof.
  apply (add_commutes_subtract_cancels
    (<[0%N := [1; 2]%Z]> {[ 1%N := [3%Z] ]})
    (<[0%N := [10; 20]%Z]> {[ 1%N := [30%Z] ]})).
  vm_compute. reflexivity.
Defined.

(** Over [double] the sum rounds, and [(a + b) - b] is [a] only up to that
    rounding: with [a = 2^-60] and [b = 1] it is [0]. *)
Remark double_add_subtract_rounds :
  VectorValues.add {[ 0%N := [0x1p-60%float] ]} {[ 0%N := [1%float] ]}
    ≫= (λ s, VectorValues.subtract s {[ 0%N := [1%float] ]}) =
  Some {[ 0%N := [0%float] ]}.
Proof. vm_compute. reflexivity. Qed.

(** ** The block matrix *)

Lemma total_width_cons d ds :
  total_width (d :: ds) = Z.to_nat d + total_width ds.
Proof. reflexivity. Qed.

Lemma fillOffsets_length off dimensions :
  length (fillOffsets off dimensions) = Datatypes.S (length dimensions).
Proof.
  revert off. induction dimensions as [|d ds IH]; intros off; simpl; [done|].
  by rewrite IH.
Qed.

Lemma fillOffsets_head off dimensions :
  fillOffsets off dimensions !! 0 = Some off.
Proof. by destruct dimensions. Qed.

(** The block after the blocks of [ds] starts where they end, whatever
    follows. *)
Lemma fillOffsets_lookup_app off ds ds' :
  fillOffsets off (ds ++ ds') !! length ds = Some (off + total_width ds).
Proof.
  revert off. induction ds as [|d ds IH]; intros off.
  - simpl. rewrite fillOffsets_head. f_equal. unfold total_width; simpl. lia.
  - rewrite total_width_cons. simpl. rewrite IH. f_equal. lia.
Qed.

Lemma fillOffsets_last off dimensions d :
  List.last (fillOffsets off dimensions) d = off + total_width dimensions.
Proof.
  revert off. induction dimensions as [|d0 ds IH]; intros off.
  - unfold total_width; simpl. lia.
  - change (fillOffsets off (d0 :: ds))
      with (off :: fillOffsets (off + Z.to_nat d0) ds).
    pose proof (fillOffsets_length (off + Z.to_nat d0) ds) as Hlen.
    specialize (IH (off + Z.to_nat d0)).
    destruct (fillOffsets (off + Z.to_nat d0) ds) as [|o os]; [done|].
    change (List.last (off :: o :: os) d) with (List.last (o :: os) d).
    rewrite IH, total_width_cons. lia.
Qed.

Lemma total_width_app ds ds' :
  total_width (ds ++ ds') = total_width ds + total_width ds'.
Proof. apply sum_list_with_app. Qed.

Section BlockMatrixFacts.
Context {S : Type} `{ScalarOps S}.
Implicit Types (Ab : VerticalBlockMatrix S) (v : list S).

(** Zeroing fresh storage gives the zero matrix, whatever the storage
    held. *)
Lemma setZero_new (uninit : S) dimensions height appendOneDimension :
  setZero (VerticalBlockMatrix_new uninit dimensions height appendOneDimension)
  = VerticalBlockMatrix_new s0 dimensions height appendOneDimension.
Proof.
  unfold setZero, VerticalBlockMatrix_new; simpl.
  by rewrite !fmap_replicate.
Qed.

(** The augmented matrix has one column more than the blocks are wide, and
    its last block, the right-hand side, is that column. *)
Lemma new_augmented_cols (c : S) dimensions height :
  length (matrix (VerticalBlockMatrix_new c dimensions height true)) =
    Datatypes.S (total_width dimensions).
Proof.
  unfold VerticalBlockMatrix_new; simpl.
  rewrite length_replicate, fillOffsets_last, total_width_app.
  unfold total_width at 2; simpl. lia.
Qed.

Lemma new_augmented_rhs_offset (c : S) dimensions height :
  variableColOffsets (VerticalBlockMatrix_new c dimensions height true)
    !!! length dimensions = total_width dimensions.
Proof.
  unfold VerticalBlockMatrix_new; simpl.
  apply list_lookup_total_correct. by rewrite fillOffsets_lookup_app.
Qed.

Lemma block_col_set_block_col Ab i v :
  variableColOffsets Ab !!! i < length (matrix Ab) →
  block_col (set_block_col Ab i 0 v) i 0 = Some v.
Proof.
  intros Hlt. unfold block_col, set_block_col; simpl.
  apply list_lookup_insert_eq. lia.
Qed.

(** The copy loop fills a vector of the right length with the blocks. *)
Lemma copy_blocks_seq Ab k : ∀ i (H0 : list (list (list S))),
  i + k ≤ length H0 →
  ExpressionFactor.copy_blocks Ab (seq i k) H0 =
    (Return tt, take i H0 ++ (block Ab <$> seq i k) ++ drop (i + k) H0).
Proof.
  induction k as [|k IH]; intros i H0 Hlen; simpl.
  - rewrite Nat.add_0_r. by rewrite take_drop.
  - unfold mbind, M_bind, vector_at_put.
    destruct (decide (i < length H0)) as [_|]; [|lia].
    rewrite IH by (rewrite length_insert; lia).
    f_equal.
    destruct (lookup_lt_is_Some_2 (<[i := block Ab i]> H0) i) as [m Hm].
    { rewrite length_insert. lia. }
    rewrite (take_S_r _ _ _ Hm).
    rewrite list_lookup_insert_eq in Hm by lia. injection Hm as <-.
    rewrite take_insert_ge by lia. rewrite drop_insert_lt by lia.
    rewrite <- app_assoc. simpl.
    by replace (i + Datatypes.S k) with (Datatypes.S i + k) by lia.
Qed.

Lemma copy_blocks_all Ab (H0 : list (list (list S))) :
  ExpressionFactor.copy_blocks Ab (seq 0 (length H0)) H0 =
    (Return tt, block Ab <$> seq 0 (length H0)).
Proof.
  rewrite copy_blocks_seq by (simpl; lia). simpl.
  by rewrite drop_all, app_nil_r.
Qed.

End BlockMatrixFacts.

(** ** ExpressionFactor *)

Section ExpressionFactorFacts.
Context {S Values T NM : Type}.
Context `{SO : ScalarOps S} `{MT : Manifold S T}.
Context `{NB : noiseModel.Base S NM}.
Variables (NDEBUG : bool) (uninit : S) (active : Values → bool).
Implicit Types (f : ExpressionFactor.t S Values T NM) (x : Values).
Implicit Types (e : Expression S Values T) (nm : NM) (z y : T).

(** A non-negative [int] survives the conversion to [size_t]. *)
Lemma to_size_t_nonneg (d : Z) (n : N) :
  (0 ≤ d < 2 ^ 31)%Z → (n =? to_size_t d)%N = true ↔ Z.of_N n = d.
Proof.
  intros Hd. unfold to_size_t. rewrite N.eqb_eq, Z.mod_small by lia. lia.
Qed.

(** What the constructor builds once the checks have passed. *)
Lemma constructed nm z e f :
  ExpressionFactor.ExpressionFactor (Some nm) z e = Return f →
  f = ExpressionFactor.mk z e (keysAndDims e).2
        (to_size_t (ExpressionFactor.accumulate (keysAndDims e).2 1))
        (keysAndDims e).1 nm.
Proof.
  unfold ExpressionFactor.ExpressionFactor.
  destruct (negb _); [done|]. destruct (keysAndDims e) as [keys dims]; simpl.
  by intros [= <-].
Qed.

(** C4: for a measurement type of tangent dimension [Dim] (a non-negative
    [int]), the constructor throws [std::invalid_argument] exactly when no
    noise model is supplied or the dimension of the supplied one is not
    [Dim]; otherwise it returns a factor that holds the measurement, the
    expression, the noise model, and the keys and dimensions it read from
    the expression. *)
Theorem constructor_fails_iff (noiseModel : option NM) z e :
  (0 ≤ Dim < 2 ^ 31)%Z →
  (fails_with (ExpressionFactor.ExpressionFactor noiseModel z e)
     InvalidArgument ↔
   noiseModel = None ∨
   ∃ nm, noiseModel = Some nm ∧ Z.of_N (noiseModel.dim nm) ≠ Dim) ∧
  (∀ nm, noiseModel = Some nm → Z.of_N (noiseModel.dim nm) = Dim →
     ∃ f, ExpressionFactor.ExpressionFactor noiseModel z e = Return f ∧
          ExpressionFactor.measurement_ f = z ∧
          ExpressionFactor.expression_ f = e ∧
          ExpressionFactor.noiseModel_ f = nm ∧
          ExpressionFactor.keys_ f = (keysAndDims e).1 ∧
          ExpressionFactor.dimensions_ f = (keysAndDims e).2 ∧
          ExpressionFactor.augmentedCols_ f =
            to_size_t (ExpressionFactor.accumulate (keysAndDims e).2 1)).
Proof.
  intros HDim. unfold ExpressionFactor.ExpressionFactor.
  destruct noiseModel as [nm|].
  - pose proof (to_size_t_nonneg Dim (noiseModel.dim nm) HDim) as Hdim.
    destruct (noiseModel.dim nm =? to_size_t Dim)%N eqn:Heq; simpl.
    + assert (Z.of_N (noiseModel.dim nm) = Dim) as Hok by by apply Hdim.
      destruct (keysAndDims e) as [keys dims]; simpl. split.
      * split.
        -- intros (err & [=] & _).
        -- intros [[=]|(nm' & [= <-] & Hne)]. done.
      * intros nm' [= <-] _. eexists. by split_and!.
    + assert (Z.of_N (noiseModel.dim nm) ≠ Dim) as Hne.
      { intros Hok. apply Hdim in Hok. congruence. }
      split.
      * split; [|intros _; eexists; split; reflexivity].
        intros _. right. by exists nm.
      * intros nm' [= <-] Hok. done.
  - split.
    + split; [by left|]. intros _. eexists; split; reflexivity.
    + intros nm [=].
Qed.

(** The keys and dimensions are read once, by the constructor:
    [linearize] and [unwhitenedError] work from the members [keys_] and
    [dimensions_], whatever [keysAndDims] of the expression would say. *)
Lemma keysAndDims_read_once f x kd (Hs : option (list (list (list S)))) :
  let f' :=
    ExpressionFactor.mk (ExpressionFactor.measurement_ f)
      (mkExpression kd (value (ExpressionFactor.expression_ f))
         (value_map (ExpressionFactor.expression_ f)))
      (ExpressionFactor.dimensions_ f) (ExpressionFactor.augmentedCols_ f)
      (ExpressionFactor.keys_ f) (ExpressionFactor.noiseModel_ f) in
  ExpressionFactor.linearize uninit active f' x =
    ExpressionFactor.linearize uninit active f x ∧
  ExpressionFactor.unwhitenedError NDEBUG uninit f' x Hs =
    ExpressionFactor.unwhitenedError NDEBUG uninit f x Hs.
Proof. done. Qed.

(** C2: at an assignment where the factor is not active, [linearize]
    returns normally, and what it returns is the null pointer: no
    [JacobianFactor] is built. *)
Theorem linearize_inactive f x :
  active x = false →
  ExpressionFactor.linearize uninit active f x = Return None.
Proof. intros Hx. unfold ExpressionFactor.linearize. by rewrite Hx. Qed.

(** [linearize] at an active assignment where the expression evaluates. *)
Lemma linearize_active f x y Ab' :
  active x = true →
  value_map (ExpressionFactor.expression_ f) x (ExpressionFactor.keys_ f)
    (VerticalBlockMatrix_new s0 (ExpressionFactor.dimensions_ f) Dim true)
    = (Return y, Ab') →
  ExpressionFactor.linearize uninit active f x =
    Return (Some (mkJacobianFactor (ExpressionFactor.keys_ f)
      (mkVerticalBlockMatrix
         (noiseModel.WhitenSystem (ExpressionFactor.noiseModel_ f)
            (matrix (set_block_col Ab' (ExpressionFactor.size f) 0
               (vopp (local (ExpressionFactor.measurement_ f) y))))
            (replicate (Z.to_nat Dim) uninit)).1
         (variableColOffsets Ab'))
      (if noiseModel.is_constrained (ExpressionFactor.noiseModel_ f)
       then Some (noiseModel.unit (ExpressionFactor.noiseModel_ f))
       else None))).
Proof.
  intros Hx Hy. unfold ExpressionFactor.linearize. rewrite Hx; simpl.
  assert (∀ model : option NM,
    setZero (Ab_ (JacobianFactor_new uninit (ExpressionFactor.keys_ f)
      (ExpressionFactor.dimensions_ f) Dim model)) =
    VerticalBlockMatrix_new s0 (ExpressionFactor.dimensions_ f) Dim true)
    as Hzero by (intros; apply setZero_new).
  destruct (noiseModel.is_constrained (ExpressionFactor.noiseModel_ f));
    rewrite Hzero, Hy; by destruct (noiseModel.WhitenSystem _ _ _).
Qed.

(** With a well-behaved expression, [value(x, map)] returns what
    [value(x)] returns. *)
Lemma value_map_returns e x keys Ab y :
  WellBehaved e → value e x = Return y →
  ∃ Ab', value_map e x keys Ab = (Return y, Ab').
Proof.
  intros He Hy. pose proof (value_map_value e He x keys Ab) as Hv.
  destruct (value_map e x keys Ab) as [o Ab']; simpl in Hv.
  exists Ab'. congruence.
Qed.

(** C1: for a factor built by the constructor from a well-behaved expression,
    at an active assignment where [unwhitenedError] returns the residual
    [r] (which is [local(z, h(x))]): the system [linearize] hands to the
    whitening has [-r] in its last column, the augmented right-hand side;
    the matrix of the returned factor is the whitening of that system; and
    if the noise model whitens by leaving the system as it is (the unit
    model), the right-hand side of the returned factor is [-r]. *)
Theorem linearize_rhs_is_negated_residual nm z e f x r :
  ExpressionFactor.ExpressionFactor (Some nm) z e = Return f →
  WellBehaved e →
  active x = true →
  ExpressionFactor.unwhitenedError NDEBUG uninit f x None = (Return r, None) →
  ∃ y Ab' factor,
    value e x = Return y ∧ r = local z y ∧
    value_map e x (ExpressionFactor.keys_ f)
      (VerticalBlockMatrix_new s0 (ExpressionFactor.dimensions_ f) Dim true)
      = (Return y, Ab') ∧
    block_col (set_block_col Ab' (ExpressionFactor.size f) 0 (vopp r))
      (ExpressionFactor.size f) 0 = Some (vopp r) ∧
    variableColOffsets Ab' !!! ExpressionFactor.size f + 1 =
      length (matrix (set_block_col Ab' (ExpressionFactor.size f) 0 (vopp r))) ∧
    ExpressionFactor.linearize uninit active f x = Return (Some factor) ∧
    Ab_ factor =
      mkVerticalBlockMatrix
        (noiseModel.WhitenSystem nm
           (matrix (set_block_col Ab' (ExpressionFactor.size f) 0 (vopp r)))
           (replicate (Z.to_nat Dim) uninit)).1
        (variableColOffsets Ab') ∧
    ((∀ A b, noiseModel.WhitenSystem nm A b = (A, b)) →
       getb factor = Some (vopp r)).
Proof.
  intros Hf He Hx Hr. apply constructed in Hf. subst f.
  unfold ExpressionFactor.unwhitenedError in Hr.
  unfold ExpressionFactor.size. simpl in *.
  destruct (value e x) as [y| |] eqn:Hy; simpl in Hr; try done.
  injection Hr as <-.
  destruct (value_map_returns e x (keysAndDims e).1
    (VerticalBlockMatrix_new s0 (keysAndDims e).2 Dim true) y He Hy)
    as [Ab' HAb'].
  assert (variableColOffsets Ab' !!! length (keysAndDims e).1 =
          total_width (keysAndDims e).2) as Hoff.
  { pose proof (value_map_offsets e He x (keysAndDims e).1
      (VerticalBlockMatrix_new s0 (keysAndDims e).2 Dim true)) as Ho.
    rewrite HAb' in Ho; simpl in Ho.
    rewrite Ho, (keysAndDims_length e He).
    apply (new_augmented_rhs_offset s0 _ Dim). }
  assert (length (matrix Ab') = Datatypes.S (total_width (keysAndDims e).2))
    as Hcols.
  { pose proof (value_map_cols e He x (keysAndDims e).1
      (VerticalBlockMatrix_new s0 (keysAndDims e).2 Dim true)) as Hc.
    rewrite HAb' in Hc; simpl in Hc.
    rewrite Hc. apply new_augmented_cols. }
  eexists y, Ab', _. split_and!; try done.
  - apply block_col_set_block_col. lia.
  - simpl. rewrite length_insert. lia.
  - by apply (linearize_active _ x y Ab').
  - done.
  - intros Hunit. unfold getb, block_col, ExpressionFactor.size; simpl.
    rewrite Hunit; simpl. rewrite Hoff. apply list_lookup_insert_eq. lia.
Qed.

(** C3: at an active assignment where the expression evaluates,
    [linearize] returns a factor; if the noise model of the expression
    factor is constrained, that factor carries the unit model the
    constrained model hands out; on the other branch it carries no noise
    model. *)
Theorem linearize_constrained_carries_unit f x y :
  WellBehaved (ExpressionFactor.expression_ f) →
  active x = true →
  value (ExpressionFactor.expression_ f) x = Return y →
  ∃ factor,
    ExpressionFactor.linearize uninit active f x = Return (Some factor) ∧
    (noiseModel.is_constrained (ExpressionFactor.noiseModel_ f) = true →
       model_ factor = Some (noiseModel.unit (ExpressionFactor.noiseModel_ f))) ∧
    (noiseModel.is_constrained (ExpressionFactor.noiseModel_ f) = false →
       model_ factor = None).
Proof.
  intros He Hx Hy.
  destruct (value_map_returns _ x (ExpressionFactor.keys_ f)
    (VerticalBlockMatrix_new s0 (ExpressionFactor.dimensions_ f) Dim true)
    y He Hy) as [Ab' HAb'].
  eexists. split; [by apply (linearize_active _ x y Ab')|].
  simpl. split; intros ->; done.
Qed.

(** C10: with a well-behaved expression and a buffer [Hs] that holds one
    matrix per key, [unwhitenedError(x, Hs)] has the outcome of
    [unwhitenedError(x)]; and where the expression evaluates, the buffer
    ends up holding, key by key, the blocks that the expression left in a
    block matrix that was all zero when it started. *)
Theorem unwhitenedError_buffer_keeps_residual f x
    (Hs : list (list (list S))) :
  WellBehaved (ExpressionFactor.expression_ f) →
  length Hs = ExpressionFactor.size f →
  (ExpressionFactor.unwhitenedError NDEBUG uninit f x (Some Hs)).1 =
    (ExpressionFactor.unwhitenedError NDEBUG uninit f x None).1 ∧
  (∀ y, value (ExpressionFactor.expression_ f) x = Return y →
     ∃ Ab',
       value_map (ExpressionFactor.expression_ f) x (ExpressionFactor.keys_ f)
         (VerticalBlockMatrix_new s0 (ExpressionFactor.dimensions_ f) Dim false)
         = (Return y, Ab') ∧
       ExpressionFactor.unwhitenedError NDEBUG uninit f x (Some Hs) =
         (Return (local (ExpressionFactor.measurement_ f) y),
          Some (block Ab' <$> seq 0 (ExpressionFactor.size f)))).
Proof.
  intros He Hlen. unfold ExpressionFactor.unwhitenedError.
  rewrite Hlen, Nat.eqb_refl, andb_false_r, setZero_new.
  pose proof (value_map_value _ He x (ExpressionFactor.keys_ f)
    (VerticalBlockMatrix_new s0 (ExpressionFactor.dimensions_ f) Dim false))
    as Hv.
  destruct (value_map _ x _ _) as [o Ab'] eqn:Hmap; simpl in Hv.
  rewrite <- Hv, <- Hlen, copy_blocks_all. split.
  - by destruct o.
  - intros y ->. by exists Ab'.
Qed.

End ExpressionFactorFacts.

(** ** The example factor *)

(** The identity expression is well behaved. *)
Lemma identity_WellBehaved {S} `{ScalarOps S} (k : N) (n : Z) :
  WellBehaved (Example.identity k n).
Proof.
  split; simpl.
  - done.
  - intros x keys Ab. by destruct (Example.Values_at k x).
  - intros x keys Ab. by destruct (Example.Values_at k x).
  - intros x keys Ab. destruct (Example.Values_at k x); simpl; try done.
    apply length_imap.
Qed.

(** The example factor is what the constructor builds. *)
Lemma unit_factor_constructed :
  ExpressionFactor.ExpressionFactor (Some (Example.Unit 2)) Example.z
    Example.h = Return Example.unit_factor.
Proof. vm_compute. reflexivity. Qed.

(** C1 on the example: the residual is [(0.5, 2)], and the factor that
    [linearize] returns with the unit model has the right-hand side
    [(-0.5, -2)] and the identity as its Jacobian block. *)
Lemma linearize_rhs_is_negated_residual_witness :
  ExpressionFactor.unwhitenedError false 0%float Example.unit_factor
    Example.x None = (Return [0.5; 2]%float, None) ∧
  ∃ factor,
    ExpressionFactor.linearize 0%float (λ _, true) Example.unit_factor
      Example.x = Return (Some factor) ∧
    getb factor = Some [-0.5; -2]%float ∧
    getA factor 0 = [[1; 0]; [0; 1]]%float.
Proof.
  split; [reflexivity|].
  destruct (linearize_rhs_is_negated_residual false 0%float (λ _, true)
    (Example.Unit 2) Example.z Example.h Example.unit_factor Example.x
    [0.5; 2]%float unit_factor_constructed (identity_WellBehaved 0 2)
    eq_refl eq_refl)
    as (y & Ab' & factor & _ & _ & _ & _ & _ & Hlin & _ & Hrhs).
  exists factor. split; [exact Hlin|]. split.
  - apply Hrhs. reflexivity.
  - vm_compute in Hlin. injection Hlin as <-. reflexivity.
Defined.

(** C2 on the example, with a gate that is always closed. *)
Lemma linearize_inactive_witness :
  ExpressionFactor.linearize 0%float (λ _, false) Example.unit_factor
    Example.x = Return None.
Proof.
  apply (linearize_inactive 0%float (λ _, false) Example.unit_factor
    Example.x).
  reflexivity.
Defined.

(** C3 on the example: the factor of the constrained model carries the unit
    model. *)
Lemma linearize_constrained_carries_unit_witness :
  ∃ factor,
    ExpressionFactor.linearize 0%float (λ _, true)
      Example.constrained_factor Example.x = Return (Some factor) ∧
    model_ factor = Some (Example.Unit 2).
Proof.
  destruct (linearize_constrained_carries_unit 0%float (λ _, true)
    Example.constrained_factor Example.x [1.5; 4]%float
    (identity_WellBehaved 0 2) eq_refl eq_refl)
    as (factor & Hlin & Hunit & _).
  exists factor. split; [exact Hlin|]. apply Hunit. reflexivity.
Defined.

(** C4 on the example: a model of dimension 3 is refused for the plane, a
    model of dimension 2 is accepted. *)
Lemma constructor_fails_iff_witness :
  fails_with
    (ExpressionFactor.ExpressionFactor (Some (Example.Unit 3)) Example.z
       Example.h) InvalidArgument ∧
  ∃ f,
    ExpressionFactor.ExpressionFactor (Some (Example.Unit 2)) Example.z
      Example.h = Return f ∧
    ExpressionFactor.keys_ f = [0%N] ∧
    ExpressionFactor.dimensions_ f = [2%Z].
Proof.
  assert (0 ≤ @Dim float (list float) Example.R2 < 2 ^ 31)%Z as HDim
    by (change (0 ≤ 2 < 2 ^ 31)%Z; lia).
  split.
  - apply (constructor_fails_iff (Some (Example.Unit 3)) Example.z Example.h
      HDim).
    right. exists (Example.Unit 3). split; [reflexivity|]. discriminate.
  - destruct (constructor_fails_iff (Some (Example.Unit 2)) Example.z
      Example.h HDim) as [_ Hok].
    destruct (Hok (Example.Unit 2) eq_refl eq_refl)
      as (f & Hf & _ & _ & _ & Hkeys & Hdims & _).
    exists f. by split_and!.
Defined.

(** C10 on the example: a buffer of one matrix, whatever it held, ends up
    holding the identity, and the residual is the one computed without a
    buffer. *)
Lemma unwhitenedError_buffer_keeps_residual_witness :
  ExpressionFactor.unwhitenedError false 0%float Example.unit_factor
    Example.x (Some [[[9%float]]]) =
  (Return [0.5; 2]%float, Some [[[1; 0]; [0; 1]]%float]).
Proof.
  destruct (unwhitenedError_buffer_keeps_residual false 0%float
    Example.unit_factor Example.x [[[9%float]]] (identity_WellBehaved 0 2)
    eq_refl) as [_ Hbuf].
  destruct (Hbuf [1.5; 4]%float eq_refl) as (Ab' & HAb' & Hrun).
  rewrite Hrun. vm_compute in HAb'. injection HAb' as <-. reflexivity.
Defined.

(** * Further properties of the code *)

(** ** VectorValues: how the inline methods compose *)

Section VectorValuesMethods.
Context {S : Type}.
Variable fmt : Key → string.
Implicit Types (vv : gmap N (list S)) (j k : N) (v w value : list S).
Implicit Types (c : list (N * list S)).

Lemma insert_fresh j value vv :
  vv !! j = None →
  VectorValues.insert fmt j value vv =
    (Return (Some (j, value)), <[j := value]> vv).
Proof.
  intros Hj. unfold VectorValues.insert, VectorValues.insert_pair,
    VectorValues.map_insert; simpl. by rewrite Hj.
Qed.

Lemma insert_taken j value w vv :
  vv !! j = Some w →
  VectorValues.insert fmt j value vv =
    (Throw (invalid_argument
       ("Requested to insert variable '" +:+ fmt j +:+
        "' already in this VectorValues.")), vv).
Proof.
  intros Hj. unfold VectorValues.insert, VectorValues.insert_pair,
    VectorValues.map_insert; simpl. by rewrite Hj.
Qed.

Lemma at_result j vv :
  (VectorValues.at_ fmt j vv).1 =
    match vv !! j with
    | Some v => Return v
    | None =>
        Throw (out_of_range
          ("Requested variable '" +:+ fmt j +:+
           "' is not in this VectorValues."))
    end.
Proof.
  destruct (vv !! j) as [v|] eqn:Hj.
  - by rewrite (at_present fmt j vv v Hj).
  - by rewrite (at_absent fmt j vv Hj).
Qed.

(** X1: [at] and [dim] never change the block vector, and [insert] and
    [erase] change it only when they return: after a throw it is as it
    was. None of the four ever fails an assertion. *)
Theorem throwing_calls_change_nothing j value vv :
  (VectorValues.at_ fmt j vv).2 = vv ∧
  (VectorValues.dim fmt j vv).2 = vv ∧
  (∀ e, (VectorValues.insert fmt j value vv).1 = Throw e →
        (VectorValues.insert fmt j value vv).2 = vv) ∧
  (∀ e, (VectorValues.erase fmt j vv).1 = Throw e →
        (VectorValues.erase fmt j vv).2 = vv) ∧
  (VectorValues.at_ fmt j vv).1 ≠ Abort ∧
  (VectorValues.dim fmt j vv).1 ≠ Abort ∧
  (VectorValues.insert fmt j value vv).1 ≠ Abort ∧
  (VectorValues.erase fmt j vv).1 ≠ Abort.
Proof.
  unfold VectorValues.dim, mbind, M_bind.
  destruct (vv !! j) as [w|] eqn:Hj.
  - rewrite (at_present fmt j vv w Hj), (insert_taken j value w vv Hj),
      (erase_present fmt j vv) by eauto.
    simpl. split_and!; done.
  - rewrite (at_absent fmt j vv Hj), (insert_fresh j value vv Hj),
      (erase_absent fmt j vv Hj).
    simpl. split_and!; done.
Qed.

(** X2: [exists(j)] tells whether [at(j)] and [dim(j)] return: where it is
    true both return, [dim] the number of rows of the block [at] returns;
    where it is false both throw [std::out_of_range]. *)
Theorem exists_decides_at j vv :
  (VectorValues.exists_ j vv = true ↔
     ∃ v, VectorValues.at_ fmt j vv = (Return v, vv) ∧
          VectorValues.dim fmt j vv = (Return (length v), vv)) ∧
  (VectorValues.exists_ j vv = false ↔
     fails_with (VectorValues.at_ fmt j vv).1 NotFound ∧
     fails_with (VectorValues.dim fmt j vv).1 NotFound).
Proof.
  unfold VectorValues.dim, mbind, M_bind.
  destruct (vv !! j) as [w|] eqn:Hj.
  - rewrite (at_present fmt j vv w Hj). simpl.
    assert (VectorValues.exists_ j vv = true) as ->
      by (apply exists_lookup; eauto).
    split; split; try done.
    + intros _. by exists w.
    + intros [(e & [=] & _) _].
  - rewrite (at_absent fmt j vv Hj). simpl.
    assert (VectorValues.exists_ j vv = false) as ->
      by (by apply exists_false).
    split; split; try done.
    + intros (v & [=] & _).
    + intros _. split; eexists; split; reflexivity.
Qed.

(** X3: [insert] of a key that does not exist returns; afterwards the key
    exists, [size()] is one more, and [at] gives for every other key what
    it gave before. *)
Theorem insert_fresh_frame j value vv :
  VectorValues.exists_ j vv = false →
  ∃ vv',
    VectorValues.insert fmt j value vv = (Return (Some (j, value)), vv') ∧
    VectorValues.exists_ j vv' = true ∧
    VectorValues.size vv' = Datatypes.S (VectorValues.size vv) ∧
    ∀ k, k ≠ j →
      (VectorValues.at_ fmt k vv').1 = (VectorValues.at_ fmt k vv).1.
Proof.
  intros Hj%exists_false. exists (<[j := value]> vv). split_and!.
  - by apply insert_fresh.
  - apply exists_lookup. rewrite lookup_insert_eq. eauto.
  - unfold VectorValues.size. by apply map_size_insert_None.
  - intros k Hk. by rewrite !at_result, lookup_insert_ne.
Qed.

(** X4: [erase] of a key that exists returns; afterwards the key does not
    exist, [size()] is one less, and [at] gives for every other key what it
    gave before. *)
Theorem erase_present_frame j vv :
  VectorValues.exists_ j vv = true →
  ∃ vv',
    VectorValues.erase fmt j vv = (Return tt, vv') ∧
    VectorValues.exists_ j vv' = false ∧
    Datatypes.S (VectorValues.size vv') = VectorValues.size vv ∧
    ∀ k, k ≠ j →
      (VectorValues.at_ fmt k vv').1 = (VectorValues.at_ fmt k vv).1.
Proof.
  intros Hj%exists_lookup. exists (delete j vv). split_and!.
  - by apply erase_present.
  - apply exists_false, lookup_delete_eq.
  - unfold VectorValues.size. rewrite map_size_delete_Some by done.
    destruct Hj as [w Hw].
    assert (base.size vv ≠ 0); [|lia].
    intros Hz%map_size_empty_inv. by rewrite Hz, lookup_empty in Hw.
  - intros k Hk. by rewrite !at_result, lookup_delete_ne.
Qed.

(** X5: [insert] of a key that does not exist followed by [erase] of that
    key gives back the block vector one started from. *)
Theorem insert_then_erase j value vv :
  VectorValues.exists_ j vv = false →
  (_ ← VectorValues.insert fmt j value; VectorValues.erase fmt j) vv =
    (Return tt, vv).
Proof.
  intros Hj%exists_false. unfold mbind, M_bind.
  rewrite (insert_fresh j value vv Hj).
  rewrite erase_present by (rewrite lookup_insert_eq; eauto).
  by rewrite delete_insert_id.
Qed.

(** X6: [erase] of a key followed by [insert] of the block that [at] gave
    for it gives back the block vector one started from. *)
Theorem erase_then_insert j value vv :
  VectorValues.at_ fmt j vv = (Return value, vv) →
  (_ ← VectorValues.erase fmt j; VectorValues.insert fmt j value) vv =
    (Return (Some (j, value)), vv).
Proof.
  intros Hat. assert (vv !! j = Some value) as Hj.
  { pose proof (at_result j vv) as Hr. rewrite Hat in Hr; simpl in Hr.
    destruct (vv !! j); by inversion Hr. }
  unfold mbind, M_bind. rewrite erase_present by eauto.
  rewrite insert_fresh by apply lookup_delete_eq.
  by rewrite insert_delete_id.
Qed.

(** X7: the order in which two different fresh keys are inserted does not
    matter for the block vector that results. *)
Theorem insert_commutes j k v w vv :
  j ≠ k →
  VectorValues.exists_ j vv = false →
  VectorValues.exists_ k vv = false →
  ∃ vv',
    (_ ← VectorValues.insert fmt j v; _ ← VectorValues.insert fmt k w;
     mret tt) vv = (Return tt, vv') ∧
    (_ ← VectorValues.insert fmt k w; _ ← VectorValues.insert fmt j v;
     mret tt) vv = (Return tt, vv').
Proof.
  intros Hjk Hj%exists_false Hk%exists_false.
  exists (<[k := w]> (<[j := v]> vv)). unfold mbind, M_bind, mret, M_ret.
  rewrite (insert_fresh j v vv Hj), (insert_fresh k w vv Hk).
  rewrite !insert_fresh by (by rewrite lookup_insert_ne).
  split; [done|]. by rewrite insert_insert_ne.
Qed.

(** X8: [tryInsert] reports [true] exactly for a key that did not exist;
    then [insert] returns the same iterator and leaves the same block
    vector. When it reports [false] it has changed nothing, its iterator
    is the one [find] gives, and [insert] throws
    [std::invalid_argument]. *)
Theorem insert_agrees_with_tryInsert j value vv :
  ((VectorValues.tryInsert j value vv).1.2 = true ↔
     VectorValues.exists_ j vv = false) ∧
  ((VectorValues.tryInsert j value vv).1.2 = true →
     VectorValues.insert fmt j value vv =
       (Return (VectorValues.tryInsert j value vv).1.1,
        (VectorValues.tryInsert j value vv).2)) ∧
  ((VectorValues.tryInsert j value vv).1.2 = false →
     (VectorValues.tryInsert j value vv).2 = vv ∧
     (VectorValues.tryInsert j value vv).1.1 = VectorValues.find j vv ∧
     fails_with (VectorValues.insert fmt j value vv).1 InvalidArgument).
Proof.
  unfold VectorValues.tryInsert, VectorValues.map_insert,
    VectorValues.find, VectorValues.map_find; simpl.
  destruct (vv !! j) as [w|] eqn:Hj; simpl.
  - assert (VectorValues.exists_ j vv = true) as ->
      by (apply exists_lookup; eauto).
    rewrite (insert_taken j value w vv Hj). split_and!; try done.
    intros _. split_and!; try done. eexists; split; reflexivity.
  - assert (VectorValues.exists_ j vv = false) as ->
      by (by apply exists_false).
    rewrite (insert_fresh j value vv Hj). split_and!; done.
Qed.

(** X9: a second [tryInsert] of a key never overwrites: it reports [false],
    hands out the entry the first call handed out, and leaves the block
    vector as the first call left it. *)
Theorem tryInsert_twice j v w vv :
  VectorValues.tryInsert j w (VectorValues.tryInsert j v vv).2 =
    (((VectorValues.tryInsert j v vv).1.1, false),
     (VectorValues.tryInsert j v vv).2).
Proof.
  unfold VectorValues.tryInsert, VectorValues.map_insert; simpl.
  destruct (vv !! j) as [u|] eqn:Hj; simpl.
  - by rewrite Hj.
  - by rewrite lookup_insert_eq.
Qed.

(** The range constructor keeps, for every key, the first pair of the
    range. *)
Lemma from_container_list_to_map c :
  VectorValues.from_container c = list_to_map c.
Proof.
  unfold VectorValues.from_container.
  assert (∀ acc : gmap N (list S),
    foldl (λ values_ key_value,
             (VectorValues.map_insert key_value values_).2) acc c =
    acc ∪ list_to_map c) as Hfold.
  { induction c as [|[k v] c IH]; intros acc; simpl.
    - by rewrite (right_id_L ∅ (∪)).
    - rewrite IH. unfold VectorValues.map_insert; simpl.
      rewrite (insert_union_singleton_l (list_to_map c)), (assoc_L (∪)).
      f_equal.
      destruct (acc !! k) as [u|] eqn:Hk; simpl.
      + apply map_eq; intros i. rewrite lookup_union.
        destruct (decide (i = k)) as [->|Hne].
        * by rewrite Hk, lookup_singleton_eq.
        * rewrite lookup_singleton_ne by done. by destruct (acc !! i).
      + by rewrite insert_union_singleton_r. }
  rewrite Hfold. by rewrite (left_id_L ∅ (∪)).
Qed.

(** X10: a block vector constructed from a container of pairs with
    distinct keys holds exactly those pairs: [find] gives a pair iff it is
    in the container, and [size()] is the number of pairs. *)
Theorem from_container_distinct_keys c :
  NoDup c.*1 →
  (∀ k v, VectorValues.find k (VectorValues.from_container c) = Some (k, v)
          ↔ (k, v) ∈ c) ∧
  VectorValues.size (VectorValues.from_container c) = length c.
Proof.
  intros Hnd. rewrite from_container_list_to_map. split.
  - intros k v. unfold VectorValues.find, VectorValues.map_find.
    rewrite (elem_of_list_to_map (M := gmap N) c k v Hnd).
    destruct (list_to_map c !! k) as [u|]; simpl; split; congruence.
  - unfold VectorValues.size. by apply map_size_list_to_map.
Qed.

(** X11: constructing a block vector from the range [begin()] to [end()]
    of a block vector gives that block vector. *)
Theorem from_container_round_trip vv :
  VectorValues.from_container (map_to_list vv) = vv.
Proof. rewrite from_container_list_to_map. apply list_to_map_to_list. Qed.

End VectorValuesMethods.

(** ** ExpressionFactor: sizes, failures and the buffer *)

Lemma to_int_in_range (z : Z) :
  (- 2 ^ 31 ≤ z < 2 ^ 31)%Z → to_int z = z.
Proof. intros Hz. unfold to_int. rewrite Z.mod_small; lia. Qed.

(** Without overflow, [accumulate] is the sum. *)
Lemma accumulate_sum (l : list Z) : ∀ init : Z,
  (0 ≤ init)%Z →
  Forall (λ d, 0 ≤ d)%Z l →
  (init + Z.of_nat (total_width l) < 2 ^ 31)%Z →
  ExpressionFactor.accumulate l init = (init + Z.of_nat (total_width l))%Z.
Proof.
  unfold ExpressionFactor.accumulate.
  induction l as [|d l IH]; intros init Hinit Hpos Hsum.
  - unfold total_width; simpl. lia.
  - apply Forall_cons in Hpos as [Hd Hpos].
    rewrite total_width_cons in Hsum |- *. simpl.
    rewrite to_int_in_range by lia. rewrite IH by (try done; lia). lia.
Qed.

Section BufferFacts.
Context {S : Type} `{SO : ScalarOps S}.
Implicit Types (Ab : VerticalBlockMatrix S) (Hs : list (list (list S))).

(** The copy loop never changes the number of matrices of the buffer. *)
Lemma copy_blocks_length Ab (indices : list nat) : ∀ Hs,
  length (ExpressionFactor.copy_blocks Ab indices Hs).2 = length Hs.
Proof.
  induction indices as [|i indices IH]; intros Hs; simpl; [done|].
  unfold mbind, M_bind, vector_at_put.
  destruct (decide (i < length Hs)); simpl; [|done].
  specialize (IH (<[i := block Ab i]> Hs)).
  destruct (ExpressionFactor.copy_blocks Ab indices _) as [[| |] Hs'];
    simpl in *; by rewrite IH, length_insert.
Qed.

(** On a buffer that is too short the copy loop fills what there is and
    then [at] throws. *)
Lemma copy_blocks_short Ab k : ∀ i Hs,
  i ≤ length Hs < i + k →
  ExpressionFactor.copy_blocks Ab (seq i k) Hs =
    (Throw (out_of_range "vector::at"),
     take i Hs ++ (block Ab <$> seq i (length Hs - i))).
Proof.
  induction k as [|k IH]; intros i Hs Hlen; simpl; [lia|].
  unfold mbind, M_bind, vector_at_put.
  destruct (decide (i < length Hs)) as [Hlt|Hge].
  - rewrite IH by (rewrite length_insert; lia). f_equal.
    rewrite length_insert.
    destruct (lookup_lt_is_Some_2 (<[i := block Ab i]> Hs) i) as [m Hm].
    { rewrite length_insert. lia. }
    rewrite (take_S_r _ _ _ Hm).
    rewrite list_lookup_insert_eq in Hm by lia. injection Hm as <-.
    rewrite take_insert_ge by lia. rewrite <- app_assoc.
    replace (length Hs - i) with (Datatypes.S (length Hs - Datatypes.S i))
      by lia.
    done.
  - f_equal. replace (length Hs - i) with 0 by lia. simpl.
    rewrite app_nil_r, take_ge; [done|lia].
Qed.

End BufferFacts.

Section ExpressionFactorMore.
Context {S Values T NM : Type}.
Context `{SO : ScalarOps S} `{MT : Manifold S T}.
Context `{NB : noiseModel.Base S NM}.
Variables (uninit : S) (active : Values → bool).
Implicit Types (f : ExpressionFactor.t S Values T NM) (x : Values).
Implicit Types (e : Expression S Values T) (nm : NM) (z y : T).
Implicit Types (Hs : list (list (list S))).

(** X12: where the dimensions of the expression are non-negative and
    their sum plus one fits an [int], the member [augmentedCols_] that the
    constructor computes is one more than the total width of the blocks,
    which is the number of columns of the matrix that [linearize]
    allocates. *)
Theorem constructor_augmentedCols nm z e f :
  ExpressionFactor.ExpressionFactor (Some nm) z e = Return f →
  Forall (λ d, 0 ≤ d)%Z (keysAndDims e).2 →
  (Z.of_nat (total_width (keysAndDims e).2) + 1 < 2 ^ 31)%Z →
  N.to_nat (ExpressionFactor.augmentedCols_ f) =
    Datatypes.S (total_width (ExpressionFactor.dimensions_ f)) ∧
  N.to_nat (ExpressionFactor.augmentedCols_ f) =
    length (matrix (Ab_ (JacobianFactor_new (NM := NM) uninit
      (ExpressionFactor.keys_ f) (ExpressionFactor.dimensions_ f)
      Dim None))).
Proof.
  intros Hf%constructed Hpos Hsum. subst f.
  cbn [ExpressionFactor.augmentedCols_ ExpressionFactor.dimensions_
       ExpressionFactor.keys_].
  unfold JacobianFactor_new. cbn [Ab_]. rewrite new_augmented_cols.
  rewrite accumulate_sum by (try done; lia).
  unfold to_size_t. rewrite Z.mod_small by lia. split; lia.
Qed.

(** X13: for a measurement type whose [Dim] is negative (as
    [Eigen::Dynamic] is), the constructor refuses every noise model of a
    dimension below [2^64 - 2^31]: the comparison converts [Dim] to
    [size_t]. *)
Theorem constructor_negative_Dim nm z e :
  (- 2 ^ 31 ≤ Dim < 0)%Z →
  (noiseModel.dim nm < 2 ^ 64 - 2 ^ 31)%N →
  fails_with (ExpressionFactor.ExpressionFactor (Some nm) z e)
    InvalidArgument.
Proof.
  intros HDim Hdim. unfold ExpressionFactor.ExpressionFactor.
  assert ((noiseModel.dim nm =? to_size_t Dim)%N = false) as ->.
  { apply N.eqb_neq. unfold to_size_t. intros Heq.
    assert (Dim mod 2 ^ 64 = Dim + 2 ^ 64)%Z as Hmod.
    { symmetry. apply (Z.mod_unique _ _ (-1)); lia. }
    rewrite Hmod in Heq. lia. }
  simpl. eexists; split; reflexivity.
Qed.

(** X14: where the expression throws, [linearize] and [unwhitenedError]
    throw the same exception: no factor is returned, and a buffer of the
    right size is left as it was. *)
Theorem expression_failure_propagates (NDEBUG : bool) f x err Hs :
  WellBehaved (ExpressionFactor.expression_ f) →
  active x = true →
  value (ExpressionFactor.expression_ f) x = Throw err →
  length Hs = ExpressionFactor.size f →
  ExpressionFactor.linearize uninit active f x = Throw err ∧
  ExpressionFactor.unwhitenedError NDEBUG uninit f x None =
    (Throw err, None) ∧
  ExpressionFactor.unwhitenedError NDEBUG uninit f x (Some Hs) =
    (Throw err, Some Hs).
Proof.
  intros He Hx Herr Hlen.
  assert (∀ keys Ab,
    (value_map (ExpressionFactor.expression_ f) x keys Ab).1 = Throw err)
    as Hmap by (intros; by rewrite (value_map_value _ He)).
  split_and!.
  - unfold ExpressionFactor.linearize. rewrite Hx; simpl.
    destruct (noiseModel.is_constrained _);
      match goal with
      | |- context [value_map ?e ?x ?k ?Ab] =>
          pose proof (Hmap k Ab) as Hv;
          destruct (value_map e x k Ab) as [o Ab']
      end; simpl in Hv; by subst o.
  - unfold ExpressionFactor.unwhitenedError. by rewrite Herr.
  - unfold ExpressionFactor.unwhitenedError.
    rewrite Hlen, Nat.eqb_refl, andb_false_r.
    match goal with
    | |- context [value_map ?e ?x ?k ?Ab] =>
        pose proof (Hmap k Ab) as Hv;
        destruct (value_map e x k Ab) as [o Ab']
    end; simpl in Hv; by subst o.
Qed.

(** In a debug build, a buffer that does not hold one matrix per key
    fails the assertion before the expression is evaluated, and is left as
    it was. *)
Lemma unwhitenedError_assert f x Hs :
  length Hs ≠ ExpressionFactor.size f →
  ExpressionFactor.unwhitenedError false uninit f x (Some Hs) =
    (Abort, Some Hs).
Proof.
  intros Hlen. unfold ExpressionFactor.unwhitenedError.
  by apply Nat.eqb_neq in Hlen as ->.
Qed.

(** X15: in a release build, with a buffer of fewer matrices than keys,
    where the expression evaluates: [unwhitenedError] throws a
    [std::out_of_range], that of [std::vector::at], after it has
    overwritten every matrix of the buffer with the block of its key. *)
Theorem unwhitenedError_short_buffer f x y Hs :
  WellBehaved (ExpressionFactor.expression_ f) →
  length Hs < ExpressionFactor.size f →
  value (ExpressionFactor.expression_ f) x = Return y →
  ∃ Ab',
    value_map (ExpressionFactor.expression_ f) x (ExpressionFactor.keys_ f)
      (VerticalBlockMatrix_new s0 (ExpressionFactor.dimensions_ f) Dim false)
      = (Return y, Ab') ∧
    fails_with
      (ExpressionFactor.unwhitenedError true uninit f x (Some Hs)).1
      NotFound ∧
    (ExpressionFactor.unwhitenedError true uninit f x (Some Hs)).2 =
      Some (block Ab' <$> seq 0 (length Hs)).
Proof.
  intros He Hlen Hy.
  destruct (value_map_returns _ x (ExpressionFactor.keys_ f)
    (VerticalBlockMatrix_new s0 (ExpressionFactor.dimensions_ f) Dim false)
    y He Hy) as [Ab' HAb'].
  exists Ab'. split; [done|].
  unfold ExpressionFactor.unwhitenedError; simpl.
  rewrite setZero_new, HAb', copy_blocks_short by (simpl; lia).
  rewrite Nat.sub_0_r. simpl. split; [|done].
  eexists; split; reflexivity.
Qed.

(** X16: in a release build, with a buffer of at least as many matrices as
    keys, where the expression evaluates: [unwhitenedError] returns the
    residual, the first matrices of the buffer are the blocks of the keys,
    and the matrices beyond are left as they were. *)
Theorem unwhitenedError_long_buffer f x y Hs :
  WellBehaved (ExpressionFactor.expression_ f) →
  ExpressionFactor.size f ≤ length Hs →
  value (ExpressionFactor.expression_ f) x = Return y →
  ∃ Ab',
    value_map (ExpressionFactor.expression_ f) x (ExpressionFactor.keys_ f)
      (VerticalBlockMatrix_new s0 (ExpressionFactor.dimensions_ f) Dim false)
      = (Return y, Ab') ∧
    ExpressionFactor.unwhitenedError true uninit f x (Some Hs) =
      (Return (local (ExpressionFactor.measurement_ f) y),
       Some ((block Ab' <$> seq 0 (ExpressionFactor.size f)) ++
             drop (ExpressionFactor.size f) Hs)).
Proof.
  intros He Hlen Hy.
  destruct (value_map_returns _ x (ExpressionFactor.keys_ f)
    (VerticalBlockMatrix_new s0 (ExpressionFactor.dimensions_ f) Dim false)
    y He Hy) as [Ab' HAb'].
  exists Ab'. split; [done|].
  unfold ExpressionFactor.unwhitenedError; simpl.
  by rewrite setZero_new, HAb', copy_blocks_seq by (simpl; lia).
Qed.

(** X17: whatever the outcome, [unwhitenedError] leaves the buffer with
    the number of matrices it had. *)
Theorem unwhitenedError_keeps_buffer_length (NDEBUG : bool) f x Hs :
  ∃ Hs',
    (ExpressionFactor.unwhitenedError NDEBUG uninit f x (Some Hs)).2 =
      Some Hs' ∧
    length Hs' = length Hs.
Proof.
  unfold ExpressionFactor.unwhitenedError.
  destruct (negb NDEBUG && negb (length Hs =? ExpressionFactor.size f));
    [by exists Hs|].
  destruct (value_map _ x _ _) as [[y| |] Ab']; try by exists Hs.
  pose proof (copy_blocks_length Ab' (seq 0 (ExpressionFactor.size f)) Hs)
    as Hlen.
  destruct (ExpressionFactor.copy_blocks Ab' _ Hs) as [[| |] Hs'];
    by exists Hs'.
Qed.

(** X18: the factor that [linearize] returns is over the keys of the
    expression factor, in their order; its block matrix has a block per
    dimension, each starting where the one before ends, and the
    right-hand side after the last. *)
Theorem linearize_layout f x y :
  WellBehaved (ExpressionFactor.expression_ f) →
  active x = true →
  value (ExpressionFactor.expression_ f) x = Return y →
  ∃ factor,
    ExpressionFactor.linearize uninit active f x = Return (Some factor) ∧
    jf_keys factor = ExpressionFactor.keys_ f ∧
    variableColOffsets (Ab_ factor) =
      fillOffsets 0 (ExpressionFactor.dimensions_ f ++ [1%Z]).
Proof.
  intros He Hx Hy.
  destruct (value_map_returns _ x (ExpressionFactor.keys_ f)
    (VerticalBlockMatrix_new s0 (ExpressionFactor.dimensions_ f) Dim true)
    y He Hy) as [Ab' HAb'].
  eexists. split; [by apply (linearize_active _ _ _ x y Ab')|].
  simpl. split; [done|].
  pose proof (value_map_offsets _ He x (ExpressionFactor.keys_ f)
    (VerticalBlockMatrix_new s0 (ExpressionFactor.dimensions_ f) Dim true))
    as Ho.
  by rewrite HAb' in Ho.
Qed.

(** X19: no uninitialised coefficient reaches a result. [unwhitenedError]
    does not depend on what fresh storage holds; neither does [linearize],
    provided the matrix that [WhitenSystem] leaves does not depend on the
    vector it is given, which [linearize] leaves uninitialised. *)
Theorem uninitialised_storage_is_not_read (NDEBUG : bool) (u1 u2 : S) f x
    (H0 : option (list (list (list S)))) :
  (∀ A b b',
     (noiseModel.WhitenSystem (ExpressionFactor.noiseModel_ f) A b).1 =
     (noiseModel.WhitenSystem (ExpressionFactor.noiseModel_ f) A b').1) →
  ExpressionFactor.linearize u1 active f x =
    ExpressionFactor.linearize u2 active f x ∧
  ExpressionFactor.unwhitenedError NDEBUG u1 f x H0 =
    ExpressionFactor.unwhitenedError NDEBUG u2 f x H0.
Proof.
  intros Hwhiten. split.
  - unfold ExpressionFactor.linearize.
    destruct (active x); simpl; [|done].
    assert (∀ (u : S) (model : option NM),
      setZero (Ab_ (JacobianFactor_new u (ExpressionFactor.keys_ f)
        (ExpressionFactor.dimensions_ f) Dim model)) =
      VerticalBlockMatrix_new s0 (ExpressionFactor.dimensions_ f) Dim true)
      as Hzero by (intros; apply setZero_new).
    destruct (noiseModel.is_constrained _); rewrite !Hzero;
      (destruct (value_map _ x _ _) as [[y| |] Ab']; [|done..]);
      match goal with
      | |- context [noiseModel.WhitenSystem ?nm ?A (replicate ?n u1)] =>
          pose proof (Hwhiten A (replicate n u1) (replicate n u2)) as Hw;
          destruct (noiseModel.WhitenSystem nm A (replicate n u1)),
            (noiseModel.WhitenSystem nm A (replicate n u2))
      end; simpl in Hw; by subst.
  - unfold ExpressionFactor.unwhitenedError.
    destruct H0 as [Hs|]; [|done]. by rewrite !setZero_new.
Qed.

End ExpressionFactorMore.

(** ** The further properties on the examples *)

(** X3 on the header's example: the key 1 is free. *)
Lemma insert_fresh_frame_witness :
  ∃ vv',
    VectorValues.insert (λ _, "x") 1 [8; 9]%float Example.values =
      (Return (Some (1%N, [8; 9]%float)), vv') ∧
    VectorValues.exists_ 1 vv' = true ∧
    VectorValues.size vv' = 4 ∧
    (VectorValues.at_ (λ _, "x") 3 vv').1 = Return [1; 2; 3]%float.
Proof.
  destruct (insert_fresh_frame (λ _, "x") 1 [8; 9]%float Example.values
    eq_refl) as (vv' & Hins & Hex & Hsize & Hframe).
  exists vv'. split_and!; [done..| |].
  - by rewrite Hsize.
  - by rewrite (Hframe 3%N).
Defined.

(** X4 on the header's example: the key 4 is erased. *)
Lemma erase_present_frame_witness :
  ∃ vv',
    VectorValues.erase (λ _, "x") 4 Example.values = (Return tt, vv') ∧
    VectorValues.exists_ 4 vv' = false ∧
    VectorValues.size vv' = 2 ∧
    (VectorValues.at_ (λ _, "x") 0 vv').1 = Return [6; 7; 8; 9]%float.
Proof.
  destruct (erase_present_frame (λ _, "x") 4 Example.values eq_refl)
    as (vv' & Hers & Hex & Hsize & Hframe).
  exists vv'. split_and!; [done..| |].
  - change (VectorValues.size Example.values) with 3 in Hsize.
    by injection Hsize.
  - by rewrite (Hframe 0%N).
Defined.

(** X5 on the header's example. *)
Lemma insert_then_erase_witness :
  (_ ← VectorValues.insert (λ _, "x") 1 [8; 9]%float;
   VectorValues.erase (λ _, "x") 1) Example.values =
  (Return tt, Example.values).
Proof.
  apply (insert_then_erase (λ _, "x") 1 [8; 9]%float Example.values).
  reflexivity.
Defined.

(** X6 on the header's example. *)
Lemma erase_then_insert_witness :
  (_ ← VectorValues.erase (λ _, "x") 4;
   VectorValues.insert (λ _, "x") 4 [4; 5]%float) Example.values =
  (Return (Some (4%N, [4; 5]%float)), Example.values).
Proof.
  apply (erase_then_insert (λ _, "x") 4 [4; 5]%float Example.values).
  reflexivity.
Defined.

(** X7 on the header's example: the keys 1 and 2 are free. *)
Lemma insert_commutes_witness :
  ∃ vv',
    (_ ← VectorValues.insert (λ _, "x") 1 [8; 9]%float;
     _ ← VectorValues.insert (λ _, "x") 2 [7%float];
     mret tt) Example.values = (Return tt, vv') ∧
    (_ ← VectorValues.insert (λ _, "x") 2 [7%float];
     _ ← VectorValues.insert (λ _, "x") 1 [8; 9]%float;
     mret tt) Example.values = (Return tt, vv').
Proof.
  apply (insert_commutes (λ _, "x") 1 2 [8; 9]%float [7%float]
    Example.values); [discriminate|reflexivity..].
Defined.

(** X10 on the pairs of the header's example. *)
Lemma from_container_distinct_keys_witness :
  VectorValues.find 4
    (VectorValues.from_container
       [(3%N, [1; 2; 3]%float); (4%N, [4; 5]%float);
        (0%N, [6; 7; 8; 9]%float)]) = Some (4%N, [4; 5]%float) ∧
  VectorValues.size
    (VectorValues.from_container
       [(3%N, [1; 2; 3]%float); (4%N, [4; 5]%float);
        (0%N, [6; 7; 8; 9]%float)]) = 3.
Proof.
  assert (NoDup
    ([(3%N, [1; 2; 3]%float); (4%N, [4; 5]%float);
      (0%N, [6; 7; 8; 9]%float)].*1)) as Hnd.
  { simpl. repeat constructor; set_solver. }
  destruct (from_container_distinct_keys _ Hnd) as [Hfind Hsize].
  split; [|exact Hsize].
  apply Hfind. set_solver.
Defined.

(** X12 on the example factor: two columns for the key and one for the
    right-hand side. *)
Lemma constructor_augmentedCols_witness :
  N.to_nat (ExpressionFactor.augmentedCols_ Example.unit_factor) = 3 ∧
  N.to_nat (ExpressionFactor.augmentedCols_ Example.unit_factor) =
    length (matrix (Ab_ (JacobianFactor_new (NM := Example.Noise) 0%float
      (ExpressionFactor.keys_ Example.unit_factor)
      (ExpressionFactor.dimensions_ Example.unit_factor) Dim None))).
Proof.
  apply (constructor_augmentedCols 0%float (Example.Unit 2) Example.z
    Example.h Example.unit_factor unit_factor_constructed).
  - repeat constructor. simpl. lia.
  - change (Z.of_nat 2 + 1 < 2 ^ 31)%Z. lia.
Defined.

(** X13 with a measurement type of dimension [Eigen::Dynamic], which is
    [-1]. *)
Lemma constructor_negative_Dim_witness :
  fails_with
    (ExpressionFactor.ExpressionFactor (H0 := Example.vector_manifold (-1))
       (Some (Example.Unit 2)) Example.z Example.h) InvalidArgument.
Proof.
  apply (constructor_negative_Dim (MT := Example.vector_manifold (-1))
    (Example.Unit 2) Example.z Example.h).
  - change (- 2 ^ 31 ≤ -1 < 0)%Z. lia.
  - change (2 < 2 ^ 64 - 2 ^ 31)%N. reflexivity.
Defined.

(** X14 on the example factor, at an assignment without the key 0. *)
Lemma expression_failure_propagates_witness :
  ExpressionFactor.linearize 0%float (λ _, true) Example.unit_factor ∅ =
    Throw (out_of_range "Values::at") ∧
  ExpressionFactor.unwhitenedError false 0%float Example.unit_factor ∅ None =
    (Throw (out_of_range "Values::at"), None) ∧
  ExpressionFactor.unwhitenedError false 0%float Example.unit_factor ∅
    (Some [[[9%float]]]) =
    (Throw (out_of_range "Values::at"), Some [[[9%float]]]).
Proof.
  apply (expression_failure_propagates 0%float (λ _, true) false
    Example.unit_factor ∅ (out_of_range "Values::at") [[[9%float]]]
    (identity_WellBehaved 0 2)); reflexivity.
Defined.

(** The sum expression is well behaved. *)
Lemma sum_WellBehaved {S} `{ScalarOps S} (k1 k2 : N) (n : Z) :
  WellBehaved (Example.sum k1 k2 n).
Proof.
  split; simpl.
  - done.
  - intros x keys Ab. by destruct (Example.sum_value k1 k2 x).
  - intros x keys Ab. by destruct (Example.sum_value k1 k2 x).
  - intros x keys Ab. destruct (Example.sum_value k1 k2 x); simpl; try done.
    by rewrite !length_imap.
Qed.

(** X15 on the factor of the sum of two keys, with a buffer of one matrix:
    the matrix is overwritten with the block of the first key, the
    identity, before [at] throws for the second. *)
Lemma unwhitenedError_short_buffer_witness :
  fails_with
    (ExpressionFactor.unwhitenedError true 0%float Example.sum_factor
       Example.x2 (Some [[[9%float]]])).1 NotFound ∧
  (ExpressionFactor.unwhitenedError true 0%float Example.sum_factor
     Example.x2 (Some [[[9%float]]])).2 = Some [[[1; 0]; [0; 1]]%float].
Proof.
  destruct (unwhitenedError_short_buffer 0%float Example.sum_factor
    Example.x2 [1.5; 4]%float [[[9%float]]] (sum_WellBehaved 0 1 2))
    as (Ab' & HAb' & Hthrow & Hbuf); [change (1 < 2); lia|reflexivity|].
  split; [exact Hthrow|].
  rewrite Hbuf. vm_compute in HAb'. injection HAb' as <-. reflexivity.
Defined.

(** X16 on the example factor, with a buffer of two matrices. *)
Lemma unwhitenedError_long_buffer_witness :
  ExpressionFactor.unwhitenedError true 0%float Example.unit_factor
    Example.x (Some [[[9%float]]; [[7%float]]]) =
  (Return [0.5; 2]%float,
   Some [[[1; 0]; [0; 1]]%float; [[7%float]]]).
Proof.
  destruct (unwhitenedError_long_buffer 0%float Example.unit_factor
    Example.x [1.5; 4]%float [[[9%float]]; [[7%float]]]
    (identity_WellBehaved 0 2))
    as (Ab' & HAb' & Hrun); [change (1 ≤ 2); lia|reflexivity|].
  rewrite Hrun. vm_compute in HAb'. injection HAb' as <-. reflexivity.
Defined.

(** X18 on the example factor. *)
Lemma linearize_layout_witness :
  ∃ factor,
    ExpressionFactor.linearize 0%float (λ _, true) Example.unit_factor
      Example.x = Return (Some factor) ∧
    jf_keys factor = [0%N] ∧
    variableColOffsets (Ab_ factor) = [0; 2; 3].
Proof.
  apply (linearize_layout 0%float (λ _, true) Example.unit_factor
    Example.x [1.5; 4]%float (identity_WellBehaved 0 2)); reflexivity.
Defined.

(** X19 on the example factor: storage that held 9 or 7. *)
Lemma uninitialised_storage_is_not_read_witness :
  ExpressionFactor.linearize 9%float (λ _, true) Example.unit_factor
    Example.x =
  ExpressionFactor.linearize 7%float (λ _, true) Example.unit_factor
    Example.x ∧
  ExpressionFactor.unwhitenedError true 9%float Example.unit_factor
    Example.x (Some [[[1%float]]]) =
  ExpressionFactor.unwhitenedError true 7%float Example.unit_factor
    Example.x (Some [[[1%float]]]).
Proof.
  apply (uninitialised_storage_is_not_read (λ _, true) true 9%float
    7%float Example.unit_factor Example.x (Some [[[1%float]]])).
  reflexivity.
Defined.

(** ** The sum and the difference over [double] *)


